(** * codeintel-code-obfuscation-analyzer: the command-line orchestrator

    A shallow embedding of [main.py]: the argument parser built by
    [setup_argparse], the tool runner [run_tool], the orchestration in
    [analyze_code] and the driver [main], together with the part of the
    Python runtime they rest on (argparse, logging, subprocess, pathlib,
    sys.exit).

    Command-line strings are byte strings ([string]).  The file system and
    the child processes are an oracle ([OS]); everything the process does
    that can be observed (log records, spawned commands, what argparse
    prints, the exit status) is kept in an explicit process state. *)

From Stdlib Require Import String Ascii List ZArith Bool Lia.
Import ListNotations.
Local Open Scope string_scope.
Local Open Scope Z_scope.

(** ** Strings *)

Module Str.

(** ["\n"] *)
Definition nl : string := String (ascii_of_nat 10) EmptyString.

(** [sep.join(l)] *)
Fixpoint join (sep : string) (l : list string) : string :=
  match l with
  | [] => ""
  | [x] => x
  | x :: rest => x ++ sep ++ join sep rest
  end.

(** [c in s] *)
Fixpoint contains (c : ascii) (s : string) : bool :=
  match s with
  | EmptyString => false
  | String c' s' => if Ascii.eqb c c' then true else contains c s'
  end.

(** [s.split(c, 1)] when [c in s]: the text before the first [c] and
    the text after it. *)
Fixpoint split1 (c : ascii) (s : string) : option (string * string) :=
  match s with
  | EmptyString => None
  | String c' s' =>
      if Ascii.eqb c c' then Some (EmptyString, s')
      else match split1 c s' with
           | Some (l, r) => Some (String c' l, r)
           | None => None
           end
  end.

(** [s.startswith(p)] *)
Definition startswith (s p : string) : bool := String.prefix p s.

(** [s[i]] for the two positions argparse looks at *)
Definition char0 (s : string) : option ascii :=
  match s with String c _ => Some c | EmptyString => None end.

Definition char1 (s : string) : option ascii :=
  match s with String _ (String c _) => Some c | _ => None end.

Definition is_dash (o : option ascii) : bool :=
  match o with Some c => Ascii.eqb c "-"%char | None => false end.

End Str.

(** ** argparse

    The parser of [setup_argparse] has one positional ([directory],
    [nargs=None], [type=str]) and optionals that all take no argument
    ([store_true], [version] and the [-h]/[--help] that
    [ArgumentParser] adds by itself, all with [nargs=0]).  The model below
    is [ArgumentParser.parse_args] for parsers of that shape, function by
    function. *)

Module Argparse.

(** [re.compile('^-\d+$|^-\d*\.\d+$').match], as a test.  What [\d]
    accepts is the regular-expression engine's business, so the
    matcher is a parameter of the model. *)
Class Regex := { negative_number_matcher : string -> bool }.

(** The four [store_true] destinations. *)
Inductive tool := Bandit | Flake8 | Pylint | Pyre.

(** What the [store] action of the positional puts in the namespace:
    [_get_values] yields the string itself when exactly one argument
    string is left, a list otherwise. *)
Inductive py_value :=
| PyStr (s : string)
| PyList (l : list string).

Inductive action :=
| HelpAction
| StoreTrueAction (dest : tool)
| VersionAction (version : string).

Record ArgumentParser := {
  prog : string;
  description : string;
  (** dest of the single positional *)
  positional : string;
  (** [_option_string_actions], in insertion order *)
  option_string_actions : list (string * action)
}.

Record Namespace := {
  directory : py_value;
  bandit : bool;
  flake8 : bool;
  pylint : bool;
  pyre : bool
}.

(** The messages [parser.error] is called with. *)
Inductive usage_error :=
| AmbiguousOption (option : string) (matches : list string)
| UnexpectedOptionString (option : string)
| IgnoredExplicitArgument (a : action) (explicit_arg : string)
| RequiredArguments (names : list string)
| UnrecognizedArguments (argv : list string).

(** The ways [parse_args] leaves through [parser.exit]. *)
Inductive parser_exit :=
| ExitHelp                      (* print_help(); exit(): status 0 *)
| ExitVersion (text : string)   (* the version, formatted, on stdout; exit(): status 0 *)
| ExitError (e : usage_error).  (* error(): usage on stderr; exit(2) *)

Definition exit_status (x : parser_exit) : Z :=
  match x with
  | ExitHelp => 0
  | ExitVersion _ => 0
  | ExitError _ => 2
  end.

(** [(action, option_string, explicit_arg)]; [action] is [None] for a
    string that looks like an option the parser does not have. *)
Record option_tuple := OptionTuple {
  ot_action : option action;
  ot_option_string : string;
  ot_explicit_arg : option string
}.

Fixpoint lookup (k : string) (m : list (string * action)) : option action :=
  match m with
  | [] => None
  | (k', a) :: m' => if String.eqb k k' then Some a else lookup k m'
  end.

Section Parsing.
Context {RE : Regex}.
Variable parser : ArgumentParser.

(** [_has_negative_number_optionals]: filled by [add_argument] with
    the option strings that look like negative numbers. *)
Definition has_negative_number_optionals : bool :=
  existsb negative_number_matcher (map fst (option_string_actions parser)).

Definition _get_option_tuples (option_string : string)
  : usage_error + list option_tuple :=
  match option_string with
  | String c0 (String c1 tail) =>
      if Ascii.eqb c0 "-" && Ascii.eqb c1 "-" then
        (* allow_abbrev is True *)
        let '(option_prefix, explicit_arg) :=
          match Str.split1 "=" option_string with
          | Some (p, e) => (p, Some e)
          | None => (option_string, None)
          end in
        inr (flat_map
               (fun '(os, a) =>
                  if Str.startswith os option_prefix
                  then [OptionTuple (Some a) os explicit_arg] else [])
               (option_string_actions parser))
      else if Ascii.eqb c0 "-" && negb (Ascii.eqb c1 "-") then
        let option_prefix := option_string in
        let short_option_prefix := String c0 (String c1 EmptyString) in
        let short_explicit_arg := tail in
        inr (flat_map
               (fun '(os, a) =>
                  if String.eqb os short_option_prefix
                  then [OptionTuple (Some a) os (Some short_explicit_arg)]
                  else if Str.startswith os option_prefix
                  then [OptionTuple (Some a) os None] else [])
               (option_string_actions parser))
      else inl (UnexpectedOptionString option_string)
  | _ => inl (UnexpectedOptionString option_string)
  end.

(** [None]: the string is a positional. *)
Definition _parse_optional (arg_string : string)
  : usage_error + option option_tuple :=
  if String.eqb arg_string "" then inr None
  else if negb (Str.is_dash (Str.char0 arg_string)) then inr None
  else
    match lookup arg_string (option_string_actions parser) with
    | Some a => inr (Some (OptionTuple (Some a) arg_string None))
    | None =>
        if (String.length arg_string =? 1)%nat then inr None
        else
          let with_equals :=
            match Str.split1 "=" arg_string with
            | Some (option_string, explicit_arg) =>
                match lookup option_string (option_string_actions parser) with
                | Some a =>
                    Some (OptionTuple (Some a) option_string (Some explicit_arg))
                | None => None
                end
            | None => None
            end in
          match with_equals with
          | Some t => inr (Some t)
          | None =>
              match _get_option_tuples arg_string with
              | inl e => inl e
              | inr [t] => inr (Some t)
              | inr (t1 :: t2 :: ts) =>
                  inl (AmbiguousOption arg_string
                         (map ot_option_string (t1 :: t2 :: ts)))
              | inr [] =>
                  if negative_number_matcher arg_string
                     && negb has_negative_number_optionals
                  then inr None
                  else if Str.contains " " arg_string then inr None
                  else inr (Some (OptionTuple None arg_string None))
              end
          end
    end.

(** The pattern of the argument strings.  Every string after the
    first ['--'] is an ['A'], so the pattern is a run of ['A'] and
    ['O'] followed, when there is a ['--'], by ['-'] and ['A']s only:
    [before] is the first part with the strings it stands for,
    [after_dashes] the strings behind the ['--']. *)
Inductive pattern := A | O (t : option_tuple).

Record arg_strings_pattern := {
  before : list (string * pattern);
  after_dashes : option (list string)
}.

Fixpoint classify (arg_strings : list string)
  : usage_error + arg_strings_pattern :=
  match arg_strings with
  | [] => inr {| before := []; after_dashes := None |}
  | arg_string :: rest =>
      if String.eqb arg_string "--" then
        inr {| before := []; after_dashes := Some rest |}
      else
        match _parse_optional arg_string with
        | inl e => inl e
        | inr option_tuple =>
            match classify rest with
            | inl e => inl e
            | inr p =>
                inr {| before :=
                         (arg_string,
                          match option_tuple with
                          | None => A
                          | Some t => O t
                          end) :: before p;
                       after_dashes := after_dashes p |}
            end
        end
  end.

(** The namespace while it is being filled, with [extras].
    [st_directory] is [None] until the positional has been
    consumed: that is both [namespace.directory is None] and
    [positionals == [directory]]. *)
Record parse_state := {
  st_directory : option py_value;
  st_bandit : bool;
  st_flake8 : bool;
  st_pylint : bool;
  st_pyre : bool;
  extras : list string
}.

Definition initial_state : parse_state :=
  {| st_directory := None; st_bandit := false; st_flake8 := false;
     st_pylint := false; st_pyre := false; extras := [] |}.

Definition store_directory (v : py_value) (st : parse_state) :=
  {| st_directory := Some v; st_bandit := st_bandit st;
     st_flake8 := st_flake8 st; st_pylint := st_pylint st;
     st_pyre := st_pyre st; extras := extras st |}.

Definition store_true (dest : tool) (st : parse_state) :=
  {| st_directory := st_directory st;
     st_bandit := match dest with Bandit => true | _ => st_bandit st end;
     st_flake8 := match dest with Flake8 => true | _ => st_flake8 st end;
     st_pylint := match dest with Pylint => true | _ => st_pylint st end;
     st_pyre := match dest with Pyre => true | _ => st_pyre st end;
     extras := extras st |}.

Definition extend_extras (strings : list string) (st : parse_state) :=
  {| st_directory := st_directory st; st_bandit := st_bandit st;
     st_flake8 := st_flake8 st; st_pylint := st_pylint st;
     st_pyre := st_pyre st; extras := (extras st ++ strings)%list |}.

(** [version % dict(prog=prog)] for a version string that starts
    with ['%(prog)s'] and has no other ['%']. *)
Definition percent_prog (version prog : string) : string :=
  if String.prefix "%(prog)s" version
  then prog ++ String.substring 8 (String.length version - 8) version
  else version.

(** [take_action] for an optional: the action is called with no
    values. *)
Definition take_action (a : action) (st : parse_state)
  : parser_exit + parse_state :=
  match a with
  | HelpAction => inl ExitHelp
  | VersionAction version =>
      inl (ExitVersion (percent_prog version (prog parser)))
  | StoreTrueAction dest => inr (store_true dest st)
  end.

Fixpoint take_actions (action_tuples : list action) (st : parse_state)
  : parser_exit + parse_state :=
  match action_tuples with
  | [] => inr st
  | a :: rest =>
      match take_action a st with
      | inl x => inl x
      | inr st' => take_actions rest st'
      end
  end.

(** The [while True] of [consume_optional] when there is an
    explicit argument.  Every optional has [nargs=0], so
    [arg_count] is 0: a single-dash option may be followed by more
    single-dash options in the same string, anything else is an
    error. *)
Fixpoint explicit_arg_actions (a : action) (option_string : string)
    (explicit_arg : string) : usage_error + list action :=
  match explicit_arg with
  | EmptyString => inl (IgnoredExplicitArgument a explicit_arg)
  | String c new_explicit_arg =>
      if negb (Str.is_dash (Str.char1 option_string)) then
        let option_string' := String "-" (String c EmptyString) in
        match lookup option_string' (option_string_actions parser) with
        | Some a' =>
            match new_explicit_arg with
            | EmptyString => inr [a; a']
            | _ =>
                match explicit_arg_actions a' option_string' new_explicit_arg with
                | inl e => inl e
                | inr l => inr (a :: l)
                end
            end
        | None => inl (IgnoredExplicitArgument a explicit_arg)
        end
      else inl (IgnoredExplicitArgument a explicit_arg)
  end.

Definition consume_optional (arg_string : string) (t : option_tuple)
    (st : parse_state) : parser_exit + parse_state :=
  match ot_action t with
  | None => inr (extend_extras [arg_string] st)
  | Some a =>
      match ot_explicit_arg t with
      | Some explicit_arg =>
          match explicit_arg_actions a (ot_option_string t) explicit_arg with
          | inl e => inl (ExitError e)
          | inr action_tuples => take_actions action_tuples st
          end
      | None => take_actions [a] st
      end
  end.

(** [_get_values] for the positional: the first ['--'] is removed
    from the argument strings. *)
Fixpoint remove_first (x : string) (l : list string) : list string :=
  match l with
  | [] => []
  | y :: l' => if String.eqb x y then l' else y :: remove_first x l'
  end.

Definition _get_values (arg_strings : list string) : py_value :=
  match remove_first "--" arg_strings with
  | [arg_string] => PyStr arg_string
  | l => PyList l
  end.

Definition is_option (x : string * pattern) : bool :=
  match snd x with O _ => true | A => false end.

(** [start_index <= max_option_string_index] *)
Definition options_ahead (l : list (string * pattern)) : bool :=
  existsb is_option l.

(** The [while] loop of [_parse_known_args], one argument string a
    turn.  While an option is still ahead, an ['A'] is the positional
    if that is still to come ([consume_positionals] matches one ['A'],
    with any ['-'] around it, on a pattern that starts with ['A'] and
    has no ['-'] before the next ['O']) and goes to [extras]
    otherwise.  Returns the state and the strings behind the last
    option. *)
Fixpoint consume_loop (l : list (string * pattern)) (st : parse_state)
  : parser_exit + (parse_state * list string) :=
  match l with
  | [] => inr (st, [])
  | (arg_string, p) :: rest =>
      if options_ahead l then
        match p with
        | O t =>
            match consume_optional arg_string t st with
            | inl x => inl x
            | inr st' => consume_loop rest st'
            end
        | A =>
            match st_directory st with
            | None =>
                consume_loop rest (store_directory (_get_values [arg_string]) st)
            | Some _ => consume_loop rest (extend_extras [arg_string] st)
            end
        end
      else inr (st, map fst l)
  end.

(** The pattern behind the last option: ['A'] for [true], ['-'] for
    [false]. *)
Definition tail_pattern (strings : list string) (dashes : option (list string))
  : list (string * bool) :=
  (map (fun s => (s, true)) strings ++
   match dashes with
   | Some l => ("--", false) :: map (fun s => (s, true)) l
   | None => []
   end)%list.

Fixpoint span_dashes (l : list (string * bool))
  : list string * list (string * bool) :=
  match l with
  | (s, false) :: l' => let '(d, r) := span_dashes l' in (s :: d, r)
  | _ => ([], l)
  end.

(** [_match_arguments_partial] for the one positional: the regular
    expression for [nargs=None], any ['-'], one ['A'], any ['-'], at
    the start of the pattern.  Returns the matched argument strings
    and what follows them. *)
Definition match_positional (l : list (string * bool))
  : option (list string * list (string * bool)) :=
  let '(d1, r1) := span_dashes l in
  match r1 with
  | (s, true) :: r2 =>
      let '(d2, r3) := span_dashes r2 in
      Some ((d1 ++ s :: d2)%list, r3)
  | _ => None
  end.

(** [consume_positionals] after the loop, and
    [extras.extend(arg_strings[stop_index:])]. *)
Definition consume_tail (l : list (string * bool)) (st : parse_state)
  : parse_state :=
  match st_directory st with
  | None =>
      match match_positional l with
      | Some (args, rest) =>
          extend_extras (map fst rest) (store_directory (_get_values args) st)
      | None => extend_extras (map fst l) st
      end
  | Some _ => extend_extras (map fst l) st
  end.

Definition _parse_known_args (arg_strings : list string)
  : parser_exit + (Namespace * list string) :=
  match classify arg_strings with
  | inl e => inl (ExitError e)
  | inr p =>
      match consume_loop (before p) initial_state with
      | inl x => inl x
      | inr (st, strings) =>
          let st' := consume_tail (tail_pattern strings (after_dashes p)) st in
          match st_directory st' with
          | None => inl (ExitError (RequiredArguments [positional parser]))
          | Some d =>
              inr ({| directory := d; bandit := st_bandit st';
                      flake8 := st_flake8 st'; pylint := st_pylint st';
                      pyre := st_pyre st' |}, extras st')
          end
      end
  end.

Definition parse_args (arg_strings : list string)
  : parser_exit + Namespace :=
  match _parse_known_args arg_strings with
  | inl x => inl x
  | inr (args, []) => inr args
  | inr (_, argv) => inl (ExitError (UnrecognizedArguments argv))
  end.

End Parsing.

End Argparse.

(** ** The process: exceptions, logging, child processes *)

Module Runtime.

Inductive exn :=
| FileNotFoundError (msg : string)
| RuntimeError (msg : string)
| CalledProcessError (returncode : Z) (cmd : list string) (stdout stderr : string)
(** any other class derived from [Exception] *)
| OtherException (cls msg : string)
| KeyboardInterrupt
| SystemExit (code : Z).

(** [isinstance(e, Exception)]: [KeyboardInterrupt] and [SystemExit]
    derive from [BaseException] only. *)
Definition is_Exception (e : exn) : bool :=
  match e with
  | KeyboardInterrupt => false
  | SystemExit _ => false
  | _ => true
  end.

(** What [subprocess.run(command, capture_output=True, text=True)]
    meets: a child that ran to its end; an exception derived from
    [Exception] on the way (the program is not installed, the output
    does not decode, ...); or a [KeyboardInterrupt] while the child
    runs, which [subprocess.run] raises again after killing the
    child. *)
Inductive proc_outcome :=
| Exited (returncode : Z) (stdout stderr : string)
(** an exception of a class derived from [Exception], by its name *)
| Raised (cls msg : string)
(** [KeyboardInterrupt] *)
| Interrupted.

(** What [Path(p).is_dir()] does: it returns a boolean, or raises the
    [OSError] of [stat] when that is not one of the errors it takes
    for a missing path (a name that is too long, a directory on the
    way that may not be searched, ...).  A boolean stands for the
    answer that returns it. *)
Inductive is_dir_result :=
| Returns (b : bool)
(** an [OSError], by the name of its class *)
| Raises (cls msg : string).

Coercion Returns : bool >-> is_dir_result.

(** The world outside the process. *)
Class OS (W : Type) := {
  (** [Path(p).is_dir()] *)
  is_dir : W -> string -> is_dir_result;
  (** run a command as a child process and wait for it *)
  spawn : W -> list string -> proc_outcome * W
}.

Inductive level := INFO | ERROR.

Inductive log_arg :=
| ArgStr (s : string)
| ArgExn (e : exn).

(** A record of the root logger (level INFO): the format string and
    its argument as the call gave them. *)
Record log_record := {
  levelname : level;
  msg : string;
  arg : log_arg
}.

Section Process.
Context {W : Type} {os : OS W}.

Record process_state := {
  world : W;
  log : list log_record;
  (** every call of [subprocess.run], in order, with its outcome *)
  spawned : list (list string * proc_outcome);
  (** what argparse printed *)
  console : list Argparse.parser_exit
}.

Definition start (w : W) : process_state :=
  {| world := w; log := []; spawned := []; console := [] |}.

Definition M (T : Type) : Type := process_state -> (exn + T) * process_state.

Definition ret {T} (x : T) : M T := fun st => (inr x, st).

Definition bind {T U} (c : M T) (k : T -> M U) : M U :=
  fun st =>
    match c st with
    | (inr x, st') => k x st'
    | (inl e, st') => (inl e, st')
    end.

Definition raise {T} (e : exn) : M T := fun st => (inl e, st).

(** [try: body except ...: handler]; [handler e] is [None] when no
    [except] clause matches [e]. *)
Definition try_except {T} (body : M T) (handler : exn -> option (M T)) : M T :=
  fun st =>
    match body st with
    | (inr x, st') => (inr x, st')
    | (inl e, st') =>
        match handler e with
        | Some h => h st'
        | None => (inl e, st')
        end
    end.

Definition logger_log (l : level) (fmt : string) (a : log_arg) : M unit :=
  fun st =>
    (inr tt,
     {| world := world st;
        log := log st ++ [{| levelname := l; msg := fmt; arg := a |}];
        spawned := spawned st;
        console := console st |}).

Definition logger_info := logger_log INFO.
Definition logger_error := logger_log ERROR.

(** [sys.exit(code)] *)
Definition sys_exit {T} (code : Z) : M T := raise (SystemExit code).

(** [Path(p).is_dir()] *)
Definition Path_is_dir (p : string) : M bool :=
  fun st =>
    match is_dir (world st) p with
    | Returns b => (inr b, st)
    | Raises cls m => (inl (OtherException cls m), st)
    end.

(** [subprocess.run(command, check=True, capture_output=True,
    text=True)]; the result is the captured standard output. *)
Definition subprocess_run (command : list string) : M string :=
  fun st =>
    let '(o, w') := spawn (world st) command in
    let st' := {| world := w'; log := log st;
                  spawned := spawned st ++ [(command, o)];
                  console := console st |} in
    match o with
    | Exited returncode stdout stderr =>
        if returncode =? 0 then (inr stdout, st')
        else (inl (CalledProcessError returncode command stdout stderr), st')
    | Raised cls m => (inl (OtherException cls m), st')
    | Interrupted => (inl KeyboardInterrupt, st')
    end.

(** [parser.parse_args(args)]: what argparse prints goes to the
    console, and [parser.exit] raises [SystemExit]. *)
Definition parse_args {RE : Argparse.Regex} (parser : Argparse.ArgumentParser)
    (args : list string) : M Argparse.Namespace :=
  fun st =>
    match Argparse.parse_args parser args with
    | inr ns => (inr ns, st)
    | inl x =>
        (inl (SystemExit (Argparse.exit_status x)),
         {| world := world st; log := log st; spawned := spawned st;
            console := console st ++ [x] |})
    end.

(** The status the interpreter ends with.  After a
    [KeyboardInterrupt] that nothing caught it prints the traceback
    and ends through SIGINT ([exit_sigint]): the status is
    128 + SIGINT.  Any other exception that nothing caught gives 1. *)
Definition exit_code {T} (r : exn + T) : Z :=
  match r with
  | inr _ => 0
  | inl (SystemExit code) => code
  | inl KeyboardInterrupt => 130
  | inl _ => 1
  end.

End Process.

Arguments process_state W : clear implicits.
Arguments M W T : clear implicits.

Declare Scope py_scope.
Delimit Scope py_scope with py.
Notation "x <- c ;; k" := (bind c (fun x => k))
  (at level 61, c at next level, right associativity) : py_scope.
Notation "c ;; k" := (bind c (fun _ => k))
  (at level 61, right associativity) : py_scope.

End Runtime.

(** ** main.py *)

Module Main.
Import Argparse Runtime.
Local Open Scope py_scope.

(** Tool version *)
Definition VERSION : string := "1.0.0".

(** [os.path.basename]: what follows the last ['/']. *)
Fixpoint basename (p : string) : string :=
  match p with
  | EmptyString => EmptyString
  | String _ rest => if Str.contains "/" p then basename rest else p
  end.

(** [setup_argparse()]; [prog] defaults to the base name of
    [sys.argv[0]], and [-h]/[--help] come with [ArgumentParser]. *)
Definition setup_argparse (argv0 : string) : ArgumentParser :=
  {| prog := basename argv0;
     description :=
       "Code Obfuscation Analyzer: Analyze obfuscated code to identify potential vulnerabilities.";
     positional := "directory";
     option_string_actions :=
       [ ("-h", HelpAction);
         ("--help", HelpAction);
         ("--bandit", StoreTrueAction Bandit);
         ("--flake8", StoreTrueAction Flake8);
         ("--pylint", StoreTrueAction Pylint);
         ("--pyre", StoreTrueAction Pyre);
         ("--version", VersionAction ("%(prog)s " ++ VERSION)) ] |}.

Section Program.
Context {W : Type} {os : OS W} {RE : Regex}.

Definition run_tool (command : list string) : M W unit :=
  try_except
    (logger_info "Running command: %s" (ArgStr (Str.join " " command)) ;;
     stdout <- subprocess_run command ;;
     logger_info ("Command output:" ++ Str.nl ++ "%s") (ArgStr stdout))
    (fun e =>
       match e with
       | CalledProcessError _ _ _ stderr =>
           Some (logger_error ("Command failed with error:" ++ Str.nl ++ "%s")
                   (ArgStr stderr) ;;
                 raise (RuntimeError
                          ("Error running command: " ++ Str.join " " command)))
       | _ => None
       end).

(** [Path(directory)]: a [TypeError] unless [directory] is a string. *)
Definition Path (directory : py_value) : M W string :=
  match directory with
  | PyStr s => ret s
  | PyList _ =>
      raise (OtherException "TypeError"
               "expected str, bytes or os.PathLike object, not list")
  end.

Definition when (b : bool) (c : M W unit) : M W unit :=
  if b then c else ret tt.

Definition analyze_code (directory : py_value)
    (use_bandit use_flake8 use_pylint use_pyre : bool) : M W unit :=
  (* Ensure the directory exists *)
  path <- Path directory ;;
  ok <- Path_is_dir path ;;
  if negb ok then
    logger_error "Directory does not exist: %s" (ArgStr path) ;;
    raise (FileNotFoundError ("Directory not found: " ++ path))
  else
    (* Run tools based on arguments *)
    when use_bandit (run_tool ["bandit"; "-r"; path]) ;;
    when use_flake8 (run_tool ["flake8"; path]) ;;
    when use_pylint (run_tool ["pylint"; path]) ;;
    when use_pyre (run_tool ["pyre"; "check"]).

Definition main (argv0 : string) (argv : list string) : M W unit :=
  let parser := setup_argparse argv0 in
  args <- parse_args parser argv ;;
  try_except
    (analyze_code (directory args) (bandit args) (flake8 args)
       (pylint args) (pyre args))
    (fun e =>
       if is_Exception e then
         Some (logger_error "An error occurred: %s" (ArgExn e) ;;
               sys_exit 1)
       else None).

(** [python main.py argv...] in the world [w]: the exit status and
    what the process did. *)
Definition python (argv0 : string) (argv : list string) (w : W)
  : Z * process_state W :=
  let '(r, st) := main argv0 argv (start w) in (exit_code r, st).

Definition status (argv0 : string) (argv : list string) (w : W) : Z :=
  fst (python argv0 argv w).

(** The command lines of the child processes, in the order they
    were spawned. *)
Definition commands (argv0 : string) (argv : list string) (w : W)
  : list (list string) :=
  map fst (spawned (snd (python argv0 argv w))).

End Program.

End Main.

(** ** A concrete world

    Used to run the program on concrete command lines. *)

Module Examples.
Import Argparse Runtime Main.

Definition is_digit (c : ascii) : bool :=
  let n := nat_of_ascii c in ((48 <=? n) && (n <=? 57))%nat.

Fixpoint all_digits (s : string) : bool :=
  match s with
  | EmptyString => true
  | String c r => is_digit c && all_digits r
  end.

Definition digits1 (s : string) : bool :=
  negb (String.eqb s "") && all_digits s.

(** ['$'] also matches before a final newline. *)
Fixpoint strip_final_newline (s : string) : string :=
  match s with
  | EmptyString => EmptyString
  | String c r =>
      if String.eqb s Str.nl then EmptyString
      else String c (strip_final_newline r)
  end.

(** The negative-number expression of argparse over ASCII digits. *)
Definition ascii_negative_number (s : string) : bool :=
  match s with
  | String c body =>
      Ascii.eqb c "-" &&
      (let body := strip_final_newline body in
       digits1 body ||
       match Str.split1 "." body with
       | Some (l, r) => all_digits l && digits1 r
       | None => false
       end)
  | EmptyString => false
  end.

#[export] Instance ascii_regex : Regex :=
  {| negative_number_matcher := ascii_negative_number |}.

(** A file system with the listed directories, in which the listed
    programs exit with status 1 and every other one with 0. *)
Record scenario := {
  directories : list string;
  failing : list string
}.

Definition mem (x : string) (l : list string) : bool :=
  existsb (String.eqb x) l.

#[export] Instance scenario_os : OS scenario :=
  {| is_dir w p := mem p (directories w);
     spawn w command :=
       (match command with
        | program :: _ =>
            if mem program (failing w)
            then Exited 1 "" (program ++ ": failed")
            else Exited 0 (program ++ ": ok") ""
        | [] => Raised "IndexError" "list index out of range"
        end, w) |}.

Definition src_only : scenario := {| directories := ["src"]; failing := [] |}.
Definition flake8_fails : scenario := {| directories := ["src"]; failing := ["flake8"] |}.

(** What [src --bandit --flake8 --pylint] parses to. *)
Definition three_tools : Namespace :=
  {| directory := PyStr "src"; bandit := true; flake8 := true;
     pylint := true; pyre := false |}.

End Examples.

(** ** Vocabulary of the properties *)

Module Props.
Import Argparse Runtime Main.
Local Open Scope py_scope.

(** The child ran to its end with status 0. *)
Definition exited_zero (o : proc_outcome) : bool :=
  match o with
  | Exited returncode _ _ => returncode =? 0
  | Raised _ _ => false
  | Interrupted => false
  end.

Definition interrupted (o : proc_outcome) : bool :=
  match o with
  | Interrupted => true
  | _ => false
  end.

(** The commands of the selected tools in the order [analyze_code]
    goes through them. *)
Definition tool_sequence (d : string) (use_bandit use_flake8 use_pylint use_pyre : bool)
  : list (list string) :=
  ((if use_bandit then [["bandit"; "-r"; d]] else []) ++
   (if use_flake8 then [["flake8"; d]] else []) ++
   (if use_pylint then [["pylint"; d]] else []) ++
   (if use_pyre then [["pyre"; "check"]] else []))%list.

Definition selected (d : string) (ns : Namespace) : list (list string) :=
  tool_sequence d (bandit ns) (flake8 ns) (pylint ns) (pyre ns).

(** A run through a list of commands that stops at the first child
    that does not exit with 0: [run_trace cmds tr completed]. *)
Inductive run_trace
  : list (list string) -> list (list string * proc_outcome) -> bool -> Prop :=
| run_trace_nil : run_trace [] [] true
| run_trace_ok c o cmds tr completed :
    exited_zero o = true ->
    run_trace cmds tr completed ->
    run_trace (c :: cmds) ((c, o) :: tr) completed
| run_trace_stop c o cmds :
    exited_zero o = false ->
    run_trace (c :: cmds) [(c, o)] false.

Section WithWorld.
Context {W : Type} {os : OS W} {RE : Regex}.

(** [run_tool] on each command in turn. *)
Fixpoint run_all (cmds : list (list string)) : M W unit :=
  match cmds with
  | [] => ret tt
  | c :: rest => run_tool c ;; run_all rest
  end.

(** The call of [analyze_code] in [main]. *)
Definition analysis (ns : Namespace) (w : W) :=
  analyze_code (directory ns) (bandit ns) (flake8 ns) (pylint ns) (pyre ns)
    (start w).

(** The record [main] logs for the exception it catches. *)
Definition error_occurred (e : exn) : log_record :=
  {| levelname := ERROR; msg := "An error occurred: %s"; arg := ArgExn e |}.

Definition command_failed (stderr : string) : log_record :=
  {| levelname := ERROR;
     msg := "Command failed with error:" ++ Str.nl ++ "%s";
     arg := ArgStr stderr |}.

Definition directory_missing (d : string) : log_record :=
  {| levelname := ERROR; msg := "Directory does not exist: %s"; arg := ArgStr d |}.

(** What [run_tool] raises: a [RuntimeError] after logging the
    standard error of a child that exited non-zero, and whatever
    [subprocess.run] raised otherwise, a [KeyboardInterrupt]
    included. *)
Inductive tool_failure (c : list string) (st st' : process_state W)
  : proc_outcome -> exn -> Prop :=
| failure_status rc out err :
    rc <> 0 ->
    log st' =
    (log st ++
       [ {| levelname := INFO; msg := "Running command: %s";
            arg := ArgStr (Str.join " " c) |};
         command_failed err ])%list ->
    tool_failure c st st' (Exited rc out err)
      (RuntimeError ("Error running command: " ++ Str.join " " c))
| failure_raised cls m :
    tool_failure c st st' (Raised cls m) (OtherException cls m)
| failure_interrupted :
    tool_failure c st st' Interrupted KeyboardInterrupt.

(** How argparse reads one argument string. *)
Definition is_positional (argv0 arg_string : string) : bool :=
  match _parse_optional (setup_argparse argv0) arg_string with
  | inr None => true
  | _ => false
  end.

(** An option string the parser does not have. *)
Definition unknown_flag (argv0 arg_string : string) : bool :=
  match _parse_optional (setup_argparse argv0) arg_string with
  | inr (Some t) =>
      match ot_action t with None => true | Some _ => false end
  | _ => false
  end.

(** The string is read as [-h], [--help] or [--version], also
    abbreviated or with something attached. *)
Definition asks_help_or_version (argv0 arg_string : string) : bool :=
  match _parse_optional (setup_argparse argv0) arg_string with
  | inr (Some t) =>
      match ot_action t with
      | Some HelpAction | Some (VersionAction _) => true
      | _ => false
      end
  | _ => false
  end.

(** The string is read as [--version], written out or abbreviated,
    with nothing attached to it. *)
Definition asks_version (argv0 arg_string : string) : bool :=
  match _parse_optional (setup_argparse argv0) arg_string with
  | inr (Some t) =>
      match ot_action t, ot_explicit_arg t with
      | Some (VersionAction _), None => true
      | _, _ => false
      end
  | _ => false
  end.

(** The parsing loop goes past the string: it is not ['--'], and it
    is read as an argument, as an option the parser does not have, or
    as a tool flag with nothing attached to it. *)
Definition goes_by (argv0 arg_string : string) : bool :=
  negb (String.eqb arg_string "--") &&
  match _parse_optional (setup_argparse argv0) arg_string with
  | inr None => true
  | inr (Some t) =>
      match ot_action t, ot_explicit_arg t with
      | None, _ => true
      | Some (StoreTrueAction _), None => true
      | _, _ => false
      end
  | inl _ => false
  end.

(** [_parse_optional] does not reject the string as ambiguous. *)
Definition readable (argv0 arg_string : string) : bool :=
  match _parse_optional (setup_argparse argv0) arg_string with
  | inl _ => false
  | inr _ => true
  end.

(** The argument strings in front of the first ['--']. *)
Fixpoint options_part (argv : list string) : list string :=
  match argv with
  | [] => []
  | s :: rest => if String.eqb s "--" then [] else s :: options_part rest
  end.

(** Some argument string is a positional: one in front of the
    first ['--'] that argparse reads as an argument, or any string
    behind it. *)
Fixpoint has_positional (argv0 : string) (argv : list string) : bool :=
  match argv with
  | [] => false
  | s :: rest =>
      if String.eqb s "--" then
        match rest with [] => false | _ :: _ => true end
      else is_positional argv0 s || has_positional argv0 rest
  end.

Definition tool_flag (arg_string : string) : bool :=
  existsb (String.eqb arg_string) ["--bandit"; "--flake8"; "--pylint"; "--pyre"].

(** An argument string of a command line made of directory
    arguments, tool flags and [--version]. *)
Definition plain_argument (argv0 arg_string : string) : bool :=
  tool_flag arg_string || String.eqb arg_string "--version" ||
  (negb (String.eqb arg_string "--") && is_positional argv0 arg_string).

(** A classified string the loop goes past. *)
Definition passing (x : string * pattern) : bool :=
  match snd x with
  | A => true
  | O t =>
      match ot_action t, ot_explicit_arg t with
      | None, _ => true
      | Some (StoreTrueAction _), None => true
      | _, _ => false
      end
  end.

(** What [classify] puts in [before] for a string. *)
Definition classified (argv0 : string) (x : string * pattern) : Prop :=
  _parse_optional (setup_argparse argv0) (fst x)
  = inr (match snd x with A => None | O t => Some t end).

Definition is_argument (x : string * pattern) : bool :=
  match snd x with A => true | O _ => false end.

Definition unknown_option (x : string * pattern) : bool :=
  match snd x with
  | O t => match ot_action t with None => true | Some _ => false end
  | A => false
  end.

Definition exits_at_once (x : string * pattern) : bool :=
  match snd x with
  | O t =>
      match ot_action t with
      | Some HelpAction | Some (VersionAction _) => true
      | _ => false
      end
  | A => false
  end.

(** The command line [directory [--bandit] [--flake8] [--pylint]
    [--pyre]]. *)
Definition command_line (d : string) (b f p y : bool) : list string :=
  (d :: (if b then ["--bandit"] else []) ++ (if f then ["--flake8"] else []) ++
        (if p then ["--pylint"] else []) ++ (if y then ["--pyre"] else []))%list.

(** The positional is not set, or is a string. *)
Definition str_or_unset (v : option py_value) : Prop :=
  match v with
  | Some (PyList _) => False
  | _ => True
  end.

End WithWorld.

End Props.

(** ** More vocabulary: the log of a tool, words of a command line *)

Module Vocabulary.
Import Argparse Runtime Main Props.

(** The option string of a tool flag. *)
Definition flag_of (dest : tool) : string :=
  match dest with
  | Bandit => "--bandit"
  | Flake8 => "--flake8"
  | Pylint => "--pylint"
  | Pyre => "--pyre"
  end.

Definition tool_eqb (a b : tool) : bool :=
  match a, b with
  | Bandit, Bandit | Flake8, Flake8 | Pylint, Pylint | Pyre, Pyre => true
  | _, _ => false
  end.

(** The flag is one of the argument strings. *)
Definition given (flag : string) (argv : list string) : bool :=
  existsb (String.eqb flag) argv.

(** The shortest abbreviation of a tool flag that argparse accepts:
    [--p] and [--py] are both [--pylint] and [--pyre]. *)
Definition min_abbrev (dest : tool) : nat :=
  match dest with
  | Bandit | Flake8 => 3
  | Pylint | Pyre => 5
  end.

Fixpoint prefixes (s : string) : list string :=
  match s with
  | EmptyString => [EmptyString]
  | String c s' => EmptyString :: map (String c) (prefixes s')
  end.


(** The records [run_tool] writes. *)
Definition running (c : list string) : log_record :=
  {| levelname := INFO; msg := "Running command: %s";
     arg := ArgStr (Str.join " " c) |}.

Definition command_output (stdout : string) : log_record :=
  {| levelname := INFO;
     msg := "Command output:" ++ Str.nl ++ "%s";
     arg := ArgStr stdout |}.

(** What one call of [run_tool] adds to the log, by the outcome of
    the child. *)
Definition tool_log (x : list string * proc_outcome) : list log_record :=
  match snd x with
  | Exited returncode stdout stderr =>
      if returncode =? 0 then [running (fst x); command_output stdout]
      else [running (fst x); command_failed stderr]
  | Raised _ _ => [running (fst x)]
  | Interrupted => [running (fst x)]
  end.

(** What [run_tool] ends with, by the outcome of the child. *)
Definition tool_result (x : list string * proc_outcome) : exn + unit :=
  match snd x with
  | Exited returncode _ _ =>
      if returncode =? 0 then inr tt
      else inl (RuntimeError ("Error running command: " ++ Str.join " " (fst x)))
  | Raised cls m => inl (OtherException cls m)
  | Interrupted => inl KeyboardInterrupt
  end.

(** The record [main] adds when the last child of the run failed
    with something its [except Exception] catches. *)
Definition caught (tr : list (list string * proc_outcome)) : list log_record :=
  match tool_result (last tr ([], Exited 0 "" "")) with
  | inl e => if is_Exception e then [error_occurred e] else []
  | inr _ => []
  end.

(** The positionals and the stored flags of a classified command
    line. *)
Definition arguments_of (l : list (string * pattern)) : list string :=
  map fst (filter is_argument l).

Definition stores (dest : tool) (x : string * pattern) : bool :=
  match snd x with
  | O t =>
      match ot_action t with
      | Some (StoreTrueAction d) => tool_eqb d dest
      | _ => false
      end
  | A => false
  end.

(** An argument string that is not ['--'], or a tool flag written
    out. *)
Definition flag_pattern (x : string * pattern) : Prop :=
  match snd x with
  | A => String.eqb "--" (fst x) = false
  | O t => exists dest, t = OptionTuple (Some (StoreTrueAction dest)) (fst x) None
  end.

(** The flag of a tool in the namespace that is being filled. *)
Definition st_flag (dest : tool) (st : parse_state) : bool :=
  match dest with
  | Bandit => st_bandit st
  | Flake8 => st_flake8 st
  | Pylint => st_pylint st
  | Pyre => st_pyre st
  end.

(** A classified string without its spelling, when that is an
    option of the parser: the loop does not look at it. *)
Definition anonymous (x : string * pattern) : string * pattern :=
  match snd x with
  | O t =>
      match ot_action t with
      | Some _ => (EmptyString, snd x)
      | None => x
      end
  | A => x
  end.

Definition erase (r : usage_error + arg_strings_pattern)
  : usage_error + (list (string * pattern) * option (list string)) :=
  match r with
  | inl e => inl e
  | inr p => inr (map anonymous (before p), after_dashes p)
  end.

Definition is_help (arg_string : string) : bool :=
  String.eqb arg_string "-h" || String.eqb arg_string "--help".

Section WithRegex.
Context {RE : Regex}.

(** A directory argument or a tool flag. *)
Definition plain_word (argv0 arg_string : string) : bool :=
  tool_flag arg_string ||
  (negb (String.eqb arg_string "--") && is_positional argv0 arg_string).

(** A directory argument, a tool flag, [--version], [-h] or
    [--help]. *)
Definition surface_word (argv0 arg_string : string) : bool :=
  plain_argument argv0 arg_string || is_help arg_string.

(** What [-h], [--help] and [--version] make the parser leave with. *)
Definition exit_of (argv0 arg_string : string) : parser_exit :=
  if is_help arg_string then ExitHelp
  else ExitVersion (basename argv0 ++ " " ++ VERSION).

End WithRegex.

(** A file system with the listed directories in which the listed
    programs are not installed: [subprocess.run] raises
    [FileNotFoundError] for them, every other program exits with 0. *)
Record installation := {
  folders : list string;
  absent : list string
}.

#[export] Instance installation_os : OS installation :=
  {| is_dir w p := Examples.mem p (folders w);
     spawn w command :=
       (match command with
        | program :: _ =>
            if Examples.mem program (absent w)
            then Raised "FileNotFoundError"
                   ("[Errno 2] No such file or directory: '" ++ program ++ "'")
            else Exited 0 (program ++ ": ok") ""
        | [] => Raised "IndexError" "list index out of range"
        end, w) |}.

Definition no_flake8 : installation :=
  {| folders := ["src"]; absent := ["flake8"] |}.

(** A file system with the listed directories in which [stat] is
    refused for the listed paths, so that [is_dir()] raises
    [PermissionError] for them, and a user who interrupts the listed
    programs from the keyboard; every other program exits with 0. *)
Record session := {
  present : list string;
  denied : list string;
  interrupts : list string
}.

#[export] Instance session_os : OS session :=
  {| is_dir w p :=
       if Examples.mem p (denied w)
       then Raises "PermissionError"
              ("[Errno 13] Permission denied: '" ++ p ++ "'")
       else Returns (Examples.mem p (present w));
     spawn w command :=
       (match command with
        | program :: _ =>
            if Examples.mem program (interrupts w) then Interrupted
            else Exited 0 (program ++ ": ok") ""
        | [] => Raised "IndexError" "list index out of range"
        end, w) |}.

Definition flake8_interrupted : session :=
  {| present := ["src"]; denied := []; interrupts := ["flake8"] |}.

Definition vault_denied : session :=
  {| present := ["src"]; denied := ["vault/code"]; interrupts := [] |}.

End Vocabulary.

(** ** The tool runner and the orchestration *)

Module Orchestration.
Import Argparse Runtime Main Props.
Local Open Scope py_scope.

(** *** Shapes of a run *)

Lemma run_trace_completed cmds tr completed :
  run_trace cmds tr completed ->
  Forall (fun x => exited_zero (snd x) = true) tr ->
  completed = true /\ map fst tr = cmds.
Proof.
  induction 1 as [|c o cmds tr completed Hok Htr IH|c o cmds Hbad];
    intros Hall.
  - split; reflexivity.
  - inversion Hall as [|x xs Hx Hxs]; subst.
    destruct (IH Hxs) as [-> <-]. split; reflexivity.
  - inversion Hall as [|x xs Hx Hxs]; subst. cbn in Hx. congruence.
Qed.

Lemma run_trace_true cmds tr :
  run_trace cmds tr true ->
  map fst tr = cmds /\ Forall (fun x => exited_zero (snd x) = true) tr.
Proof.
  intros H. remember true as completed eqn:E in H.
  induction H as [|c o cmds tr completed Hok Htr IH|c o cmds Hbad].
  - split; [reflexivity | constructor].
  - destruct (IH E) as [Hm Hall]. split.
    + cbn. now rewrite Hm.
    + constructor; [exact Hok | exact Hall].
  - discriminate.
Qed.

(** A child that did not exit with 0 is the last one of the run, and
    the commands spawned up to it are the head of the sequence. *)
Lemma run_trace_failure cmds tr completed earlier c o later :
  run_trace cmds tr completed ->
  tr = (earlier ++ (c, o) :: later)%list ->
  exited_zero o = false ->
  completed = false /\ later = [] /\
  exists skipped, cmds = (map fst earlier ++ c :: skipped)%list.
Proof.
  intros H. revert earlier.
  induction H as [|c' o' cmds tr completed Hok Htr IH|c' o' cmds Hbad];
    intros earlier E Hfail.
  - destruct earlier; discriminate.
  - destruct earlier as [|x earlier]; cbn in E.
    + injection E as -> -> _. congruence.
    + injection E as <- E.
      destruct (IH _ E Hfail) as (Hc & Hl & skipped & Hs).
      split; [exact Hc|]. split; [exact Hl|].
      exists skipped. cbn. now rewrite Hs.
  - destruct earlier as [|x earlier]; cbn in E.
    + injection E as <- <- <-.
      split; [reflexivity|]. split; [reflexivity|].
      exists cmds. reflexivity.
    + injection E as _ E. destruct earlier; discriminate.
Qed.

Lemma run_trace_false cmds tr :
  run_trace cmds tr false ->
  exists earlier c o,
    tr = (earlier ++ [(c, o)])%list /\ exited_zero o = false.
Proof.
  intros H. remember false as completed eqn:E in H.
  induction H as [|c o cmds tr completed Hok Htr IH|c o cmds Hbad].
  - discriminate.
  - destruct (IH E) as (earlier & c' & o' & -> & Hbad).
    exists ((c, o) :: earlier), c', o'. split; [reflexivity | exact Hbad].
  - exists [], c, o. split; [reflexivity | exact Hbad].
Qed.

(** The commands of a run are a head of the sequence. *)
Lemma run_trace_prefix cmds tr completed :
  run_trace cmds tr completed ->
  exists skipped, cmds = (map fst tr ++ skipped)%list.
Proof.
  induction 1 as [|c o cmds tr completed Hok Htr IH|c o cmds Hbad].
  - exists []. reflexivity.
  - destruct IH as (skipped & ->). exists skipped. reflexivity.
  - exists cmds. reflexivity.
Qed.

Lemma NoDup_app_l {T} (l1 l2 : list T) : NoDup (l1 ++ l2) -> NoDup l1.
Proof.
  induction l1 as [|x l1 IH]; cbn; intros H.
  - constructor.
  - inversion H as [|y l Hnotin Hnd]; subst. constructor.
    + intros Hin. apply Hnotin. apply in_or_app. now left.
    + apply IH. exact Hnd.
Qed.

Lemma tool_sequence_NoDup d b f p y : NoDup (tool_sequence d b f p y).
Proof.
  unfold tool_sequence.
  destruct b, f, p, y; cbn;
    repeat (constructor; [cbn; intuition discriminate|]); constructor.
Qed.

Section WithWorld.
Context {W : Type} {os : OS W} {RE : Regex}.

(** *** [run_tool] *)

Lemma run_tool_spawned c (st : process_state W) :
  spawned (snd (run_tool c st)) =
  (spawned st ++ [(c, fst (spawn (world st) c))])%list.
Proof.
  unfold run_tool, try_except, bind, subprocess_run, logger_info,
    logger_error, logger_log, raise; cbn.
  destruct (spawn (world st) c) as [o w'].
  destruct o as [rc out err|cls m|]; cbn.
  - destruct (rc =? 0); reflexivity.
  - reflexivity.
  - reflexivity.
Qed.

Lemma run_tool_ok c (st : process_state W) :
  exited_zero (fst (spawn (world st) c)) = true ->
  fst (run_tool c st) = inr tt.
Proof.
  unfold run_tool, try_except, bind, subprocess_run, logger_info,
    logger_error, logger_log, raise; cbn.
  destruct (spawn (world st) c) as [o w'].
  destruct o as [rc out err|cls m|]; cbn; intros H.
  - rewrite H. reflexivity.
  - discriminate.
  - discriminate.
Qed.

Lemma run_tool_fail c (st : process_state W) :
  exited_zero (fst (spawn (world st) c)) = false ->
  exists e,
    fst (run_tool c st) = inl e /\
    tool_failure c st (snd (run_tool c st)) (fst (spawn (world st) c)) e.
Proof.
  unfold run_tool, try_except, bind, subprocess_run, logger_info,
    logger_error, logger_log, raise; cbn.
  destruct (spawn (world st) c) as [o w'].
  destruct o as [rc out err|cls m|]; cbn; intros H.
  - rewrite H. cbn. eexists. split; [reflexivity|].
    constructor.
    + intros ->. discriminate.
    + cbn. rewrite <- app_assoc. reflexivity.
  - eexists. split; [reflexivity|]. constructor.
  - eexists. split; [reflexivity|]. constructor.
Qed.

(** [main] catches what [run_tool] raises, the interrupt apart. *)
Lemma tool_failure_Exception c (st st' : process_state W) o e :
  tool_failure c st st' o e -> is_Exception e = negb (interrupted o).
Proof. destruct 1; reflexivity. Qed.


(** *** The sequence of tools *)

Lemma run_all_trace cmds : forall st : process_state W,
  exists tr completed,
    spawned (snd (run_all cmds st)) = (spawned st ++ tr)%list /\
    run_trace cmds tr completed /\
    (completed = true -> fst (run_all cmds st) = inr tt) /\
    (completed = false ->
     exists e c o st0,
       fst (run_all cmds st) = inl e /\
       tool_failure c st0 (snd (run_all cmds st)) o e /\
       exists earlier, tr = (earlier ++ [(c, o)])%list).
Proof.
  induction cmds as [|c rest IH]; intros st.
  - exists [], true. cbn. rewrite app_nil_r.
    repeat split; [constructor | discriminate].
  - pose proof (run_tool_spawned c st) as Hsp.
    destruct (exited_zero (fst (spawn (world st) c))) eqn:Hz.
    + pose proof (run_tool_ok c st Hz) as Hok.
      destruct (IH (snd (run_tool c st)))
        as (tr & completed & Htr & Hrun & Hdone & Hfail).
      assert (Hstep : run_all (c :: rest) st = run_all rest (snd (run_tool c st))).
      { cbn [run_all]. unfold bind at 1.
        destruct (run_tool c st) as [r st1]. cbn in Hok. subst r.
        reflexivity. }
      rewrite Hstep.
      exists ((c, fst (spawn (world st) c)) :: tr), completed.
      split; [|split; [|split]].
      * rewrite Htr, Hsp, <- app_assoc. reflexivity.
      * constructor; assumption.
      * exact Hdone.
      * intros E. destruct (Hfail E) as (e & c' & o & st0 & He & Hf & earlier & ->).
        exists e, c', o, st0. split; [exact He|]. split; [exact Hf|].
        exists ((c, fst (spawn (world st) c)) :: earlier). reflexivity.
    + destruct (run_tool_fail c st Hz) as (e & He & Hf).
      assert (Hstep : run_all (c :: rest) st = (inl e, snd (run_tool c st))).
      { cbn [run_all]. unfold bind at 1.
        destruct (run_tool c st) as [r st1]. cbn in He. subst r.
        reflexivity. }
      rewrite Hstep. cbn [fst snd].
      exists [(c, fst (spawn (world st) c))], false.
      split; [exact Hsp|]. split; [now constructor|].
      split; [discriminate|]. intros _.
      exists e, c, (fst (spawn (world st) c)), st.
      split; [reflexivity|]. split; [exact Hf|].
      exists []. reflexivity.
Qed.

(** With the directory in place, [analyze_code] is the run through
    the selected tools. *)
Lemma analyze_code_run d b f p y (st : process_state W) :
  is_dir (world st) d = true ->
  analyze_code (PyStr d) b f p y st = run_all (tool_sequence d b f p y) st.
Proof.
  intros Hd.
  unfold analyze_code, Path, Path_is_dir, tool_sequence, when.
  unfold bind at 1 2. cbn [ret]. rewrite Hd. cbn [negb].
  destruct b, f, p, y; cbn [app run_all]; unfold bind, ret;
    repeat
      match goal with
      | |- context [run_tool ?c ?s] =>
          destruct (run_tool c s) as [[?|[]] ?]
      end;
    reflexivity.
Qed.

Lemma analyze_code_missing d b f p y (st : process_state W) :
  is_dir (world st) d = false ->
  fst (analyze_code (PyStr d) b f p y st)
  = inl (FileNotFoundError ("Directory not found: " ++ d)) /\
  spawned (snd (analyze_code (PyStr d) b f p y st)) = spawned st /\
  log (snd (analyze_code (PyStr d) b f p y st))
  = (log st ++ [directory_missing d])%list.
Proof.
  intros Hd.
  unfold analyze_code, Path, Path_is_dir, bind, ret, logger_error,
    logger_log, raise.
  rewrite Hd. cbn. repeat split.
Qed.

Lemma analyze_code_check_raises d cls m b f p y (st : process_state W) :
  is_dir (world st) d = Raises cls m ->
  analyze_code (PyStr d) b f p y st = (inl (OtherException cls m), st).
Proof.
  intros Hd. unfold analyze_code, Path, Path_is_dir, bind, ret.
  now rewrite Hd.
Qed.

Lemma analyze_code_not_str l b f p y (st : process_state W) :
  analyze_code (PyList l) b f p y st
  = (inl (OtherException "TypeError"
            "expected str, bytes or os.PathLike object, not list"), st).
Proof. reflexivity. Qed.

(** *** The driver *)

Lemma python_success argv0 argv w ns :
  Argparse.parse_args (setup_argparse argv0) argv = inr ns ->
  fst (analysis ns w) = inr tt ->
  python argv0 argv w = (0, snd (analysis ns w)).
Proof.
  intros Hp Hr. unfold python, main, bind, Runtime.parse_args, try_except.
  rewrite Hp. fold (analysis ns w).
  destruct (analysis ns w) as [r st]. cbn in Hr. subst r. reflexivity.
Qed.

Lemma python_failure argv0 argv w ns e :
  Argparse.parse_args (setup_argparse argv0) argv = inr ns ->
  fst (analysis ns w) = inl e ->
  is_Exception e = true ->
  fst (python argv0 argv w) = 1 /\
  spawned (snd (python argv0 argv w)) = spawned (snd (analysis ns w)) /\
  log (snd (python argv0 argv w))
  = (log (snd (analysis ns w)) ++ [error_occurred e])%list.
Proof.
  intros Hp Hr He. unfold python, main, bind, Runtime.parse_args, try_except.
  rewrite Hp. fold (analysis ns w).
  destruct (analysis ns w) as [r st]. cbn in Hr. subst r.
  rewrite He. cbn. repeat split.
Qed.

(** What [main] does not catch ends the process. *)
Lemma python_uncaught argv0 argv w ns e :
  Argparse.parse_args (setup_argparse argv0) argv = inr ns ->
  fst (analysis ns w) = inl e ->
  is_Exception e = false ->
  python argv0 argv w = (exit_code (@inl exn unit e), snd (analysis ns w)).
Proof.
  intros Hp Hr He. unfold python, main, bind, Runtime.parse_args, try_except.
  rewrite Hp. fold (analysis ns w).
  destruct (analysis ns w) as [r st]. cbn in Hr. subst r.
  rewrite He. reflexivity.
Qed.

(** Whatever [analyze_code] raises is an [Exception], or the
    interrupt of a child. *)
Lemma analysis_raises ns w e :
  fst (analysis ns w) = inl e ->
  is_Exception e = true \/ e = KeyboardInterrupt.
Proof.
  unfold analysis. destruct (directory ns) as [d|l].
  - destruct (is_dir (world (start w)) d) as [[|]|cls m] eqn:Hd.
    + rewrite (analyze_code_run _ _ _ _ _ _ Hd).
      destruct (run_all_trace (selected d ns) (start w))
        as (tr & completed & _ & _ & Hdone & Hfail).
      unfold selected in *.
      destruct completed.
      * rewrite (Hdone eq_refl). discriminate.
      * destruct (Hfail eq_refl) as (e' & c & o & st0 & He' & Hf & _).
        rewrite He'. intros [= <-].
        destruct Hf; [left | left | right]; reflexivity.
    + destruct (analyze_code_missing d (bandit ns) (flake8 ns) (pylint ns)
                  (pyre ns) (start w) Hd) as (-> & _).
      intros [= <-]. left. reflexivity.
    + rewrite (analyze_code_check_raises _ _ _ _ _ _ _ _ Hd).
      intros [= <-]. left. reflexivity.
  - rewrite analyze_code_not_str. cbn. intros [= <-]. left. reflexivity.
Qed.

(** The run of the process on an existing directory: it goes through
    the selected tools; the status is 0 when it gets through, 130
    when the last child was interrupted, and 1 otherwise. *)
Lemma python_trace argv0 argv w ns d :
  Argparse.parse_args (setup_argparse argv0) argv = inr ns ->
  directory ns = PyStr d ->
  is_dir w d = true ->
  exists completed,
    run_trace (selected d ns) (spawned (snd (python argv0 argv w))) completed /\
    status argv0 argv w
    = (if completed then 0
       else if interrupted
                 (snd (last (spawned (snd (python argv0 argv w)))
                         ([], Exited 0 "" "")))
            then 130 else 1).
Proof.
  intros Hp Hdir Hd.
  assert (Ha : analysis ns w = run_all (selected d ns) (start w)).
  { unfold analysis. rewrite Hdir. now apply analyze_code_run. }
  destruct (run_all_trace (selected d ns) (start w))
    as (tr & completed & Hsp & Hrun & Hdone & Hfail).
  cbn [start spawned app] in Hsp.
  exists completed. destruct completed.
  - rewrite <- Ha in Hdone, Hsp.
    unfold status. rewrite (python_success _ _ _ _ Hp (Hdone eq_refl)).
    cbn [fst snd]. rewrite Hsp. split; [exact Hrun | reflexivity].
  - destruct (Hfail eq_refl) as (e & c & o & st0 & He & Hf & earlier & Htr).
    rewrite <- Ha in He, Hsp.
    pose proof (tool_failure_Exception _ _ _ _ _ Hf) as Hexc.
    destruct (interrupted o) eqn:Hint; cbn [negb] in Hexc.
    + rewrite (python_uncaught _ _ _ _ _ Hp He Hexc) in *.
      unfold status. rewrite (python_uncaught _ _ _ _ _ Hp He Hexc).
      cbn [fst snd]. rewrite Hsp. split; [exact Hrun|].
      rewrite Htr, last_last. cbn [snd]. rewrite Hint.
      destruct Hf; try discriminate. reflexivity.
    + destruct (python_failure _ _ _ _ _ Hp He Hexc) as (Hs & Hspawn & _).
      unfold status. rewrite Hs, Hspawn, Hsp. split; [exact Hrun|].
      rewrite Htr, last_last. cbn [snd]. now rewrite Hint.
Qed.

Lemma python_exit argv0 argv w x :
  Argparse.parse_args (setup_argparse argv0) argv = inl x ->
  python argv0 argv w =
  (Argparse.exit_status x,
   {| world := w; log := []; spawned := []; console := [x] |}).
Proof.
  intros Hp. unfold python, main, bind, Runtime.parse_args.
  rewrite Hp. reflexivity.
Qed.

(** Without an existing directory no child is spawned. *)
Lemma python_no_directory argv0 argv w ns :
  Argparse.parse_args (setup_argparse argv0) argv = inr ns ->
  (forall d, directory ns = PyStr d -> is_dir w d <> true) ->
  status argv0 argv w = 1 /\ spawned (snd (python argv0 argv w)) = [].
Proof.
  intros Hp Hno. unfold status.
  assert (Hgen : forall e,
             analysis ns w = (inl e, snd (analysis ns w)) ->
             is_Exception e = true ->
             spawned (snd (analysis ns w)) = [] ->
             fst (python argv0 argv w) = 1 /\
             spawned (snd (python argv0 argv w)) = []).
  { intros e Ha He Hnone.
    assert (Hf : fst (analysis ns w) = inl e) by now rewrite Ha.
    destruct (python_failure _ _ _ _ _ Hp Hf He) as (Hs & Hspawn & _).
    split; [exact Hs | now rewrite Hspawn]. }
  destruct (directory ns) as [d|l] eqn:Hdir.
  - destruct (is_dir w d) as [[|]|cls m] eqn:Hd.
    + now destruct (Hno d eq_refl).
    + destruct (analyze_code_missing d (bandit ns) (flake8 ns) (pylint ns)
                  (pyre ns) (start w) Hd) as (He & Hsp & _).
      apply (Hgen (FileNotFoundError ("Directory not found: " ++ d)));
        [|reflexivity|]; unfold analysis; rewrite Hdir;
        [rewrite <- He; now destruct (analyze_code _ _ _ _ _ _) | exact Hsp].
    + apply (Hgen (OtherException cls m)); [|reflexivity|];
        unfold analysis; rewrite Hdir;
        rewrite (analyze_code_check_raises d cls m _ _ _ _ (start w) Hd);
        reflexivity.
  - apply (Hgen (OtherException "TypeError"
                   "expected str, bytes or os.PathLike object, not list"));
      [|reflexivity|];
      unfold analysis; rewrite Hdir, analyze_code_not_str; reflexivity.
Qed.

(** *** The properties *)

(** C1. On an existing directory, whatever the selected tools: a
    child that exits non-zero is the last child of the run, the
    process exits with status 1, and the tools that come after it
    in the sequence bandit, flake8, pylint, pyre are not spawned. *)
Theorem C1_fail_fast argv0 argv w ns d earlier c rc out err later :
  Argparse.parse_args (setup_argparse argv0) argv = inr ns ->
  directory ns = PyStr d ->
  is_dir w d = true ->
  spawned (snd (python argv0 argv w))
  = (earlier ++ (c, Exited rc out err) :: later)%list ->
  rc <> 0 ->
  status argv0 argv w = 1 /\
  later = [] /\
  exists skipped, selected d ns = (map fst earlier ++ c :: skipped)%list.
Proof.
  intros Hp Hdir Hd Hsp Hrc.
  destruct (python_trace _ _ _ _ _ Hp Hdir Hd) as (completed & Hrun & Hs).
  assert (Hz : exited_zero (Exited rc out err) = false).
  { cbn. now apply Z.eqb_neq. }
  destruct (run_trace_failure _ _ _ _ _ _ _ Hrun Hsp Hz)
    as (-> & Hl & Hskip).
  split; [|split; assumption].
  rewrite Hs, Hsp, Hl, last_last. reflexivity.
Qed.

(** C2. When the directory argument is not an existing directory,
    the process exits with status 1 and spawns no child, whatever
    the tool flags. *)
Theorem C2_missing_directory argv0 argv w ns d :
  Argparse.parse_args (setup_argparse argv0) argv = inr ns ->
  directory ns = PyStr d ->
  is_dir w d = false ->
  status argv0 argv w = 1 /\ spawned (snd (python argv0 argv w)) = [].
Proof.
  intros Hp Hdir Hd. apply (python_no_directory _ _ _ _ Hp).
  intros d' E. rewrite Hdir in E. injection E as <-. rewrite Hd.
  discriminate.
Qed.

Lemma single_command argv0 argv w ns d c :
  Argparse.parse_args (setup_argparse argv0) argv = inr ns ->
  directory ns = PyStr d ->
  is_dir w d = true ->
  selected d ns = [c] ->
  commands argv0 argv w = [c].
Proof.
  intros Hp Hdir Hd Hsel.
  destruct (python_trace _ _ _ _ _ Hp Hdir Hd) as (completed & Hrun & _).
  rewrite Hsel in Hrun. unfold commands.
  inversion Hrun as [|c' o cmds tr b Hok Htr|c' o cmds Hbad]; subst.
  - inversion Htr; subst. reflexivity.
  - reflexivity.
Qed.

(** C3. On an existing directory [d] with exactly one tool flag
    set, exactly one child is spawned: [bandit -r d] for --bandit,
    [flake8 d] for --flake8, [pylint d] for --pylint, and
    [pyre check], whatever [d] is, for --pyre. *)
Theorem C3_single_tool argv0 argv w ns d :
  Argparse.parse_args (setup_argparse argv0) argv = inr ns ->
  directory ns = PyStr d ->
  is_dir w d = true ->
  (bandit ns = true -> flake8 ns = false -> pylint ns = false ->
   pyre ns = false ->
   commands argv0 argv w = [["bandit"; "-r"; d]]) /\
  (bandit ns = false -> flake8 ns = true -> pylint ns = false ->
   pyre ns = false ->
   commands argv0 argv w = [["flake8"; d]]) /\
  (bandit ns = false -> flake8 ns = false -> pylint ns = true ->
   pyre ns = false ->
   commands argv0 argv w = [["pylint"; d]]) /\
  (bandit ns = false -> flake8 ns = false -> pylint ns = false ->
   pyre ns = true ->
   commands argv0 argv w = [["pyre"; "check"]]).
Proof.
  intros Hp Hdir Hd.
  repeat split; intros Hb Hf Hl Hy;
    apply (single_command _ _ _ _ _ _ Hp Hdir Hd);
    unfold selected; rewrite Hb, Hf, Hl, Hy; reflexivity.
Qed.

(** C4. On an existing directory with the four flags set, when
    every child that is spawned exits with 0, the process exits
    with status 0 after four children, spawned one after the other
    in the order bandit, flake8, pylint, pyre. *)
Theorem C4_all_tools argv0 argv w ns d :
  Argparse.parse_args (setup_argparse argv0) argv = inr ns ->
  directory ns = PyStr d ->
  is_dir w d = true ->
  bandit ns = true -> flake8 ns = true -> pylint ns = true ->
  pyre ns = true ->
  Forall (fun x => exited_zero (snd x) = true)
    (spawned (snd (python argv0 argv w))) ->
  status argv0 argv w = 0 /\
  commands argv0 argv w
  = [["bandit"; "-r"; d]; ["flake8"; d]; ["pylint"; d]; ["pyre"; "check"]].
Proof.
  intros Hp Hdir Hd Hb Hf Hl Hy Hall.
  destruct (python_trace _ _ _ _ _ Hp Hdir Hd) as (completed & Hrun & Hs).
  destruct (run_trace_completed _ _ _ Hrun Hall) as (-> & Hcmds).
  split; [exact Hs|]. unfold commands. rewrite Hcmds.
  unfold selected. rewrite Hb, Hf, Hl, Hy. reflexivity.
Qed.

(** C5. On an existing directory with no tool flag set, the
    process exits with status 0 and spawns no child. *)
Theorem C5_no_tool argv0 argv w ns d :
  Argparse.parse_args (setup_argparse argv0) argv = inr ns ->
  directory ns = PyStr d ->
  is_dir w d = true ->
  bandit ns = false -> flake8 ns = false -> pylint ns = false ->
  pyre ns = false ->
  status argv0 argv w = 0 /\ spawned (snd (python argv0 argv w)) = [].
Proof.
  intros Hp Hdir Hd Hb Hf Hl Hy.
  destruct (python_trace _ _ _ _ _ Hp Hdir Hd) as (completed & Hrun & Hs).
  unfold selected in Hrun. rewrite Hb, Hf, Hl, Hy in Hrun. cbn in Hrun.
  inversion Hrun; subst. split; [exact Hs | reflexivity].
Qed.



(** C9. In every run each command is spawned at most once: the
    command lines of the children are pairwise different. *)
Theorem C9_no_retry argv0 argv w : NoDup (commands argv0 argv w).
Proof.
  unfold commands.
  destruct (Argparse.parse_args (setup_argparse argv0) argv) as [x|ns] eqn:Hp.
  - rewrite (python_exit _ _ _ _ Hp). constructor.
  - destruct (directory ns) as [d|l] eqn:Hdir.
    + destruct (is_dir w d) as [[|]|cls m] eqn:Hd.
      * destruct (python_trace _ _ _ _ _ Hp Hdir Hd) as (completed & Hrun & _).
        destruct (run_trace_prefix _ _ _ Hrun) as (skipped & Hsel).
        apply NoDup_app_l with (l2 := skipped). rewrite <- Hsel.
        apply tool_sequence_NoDup.
      * destruct (python_no_directory _ _ w _ Hp) as (_ & ->).
        -- intros d' E. rewrite Hdir in E. injection E as <-. rewrite Hd.
           discriminate.
        -- constructor.
      * destruct (python_no_directory _ _ w _ Hp) as (_ & ->).
        -- intros d' E. rewrite Hdir in E. injection E as <-. rewrite Hd.
           discriminate.
        -- constructor.
    + destruct (python_no_directory _ _ w _ Hp) as (_ & ->).
      * intros d E. rewrite Hdir in E. discriminate.
      * constructor.
Qed.

End WithWorld.

End Orchestration.

(** ** The command line *)

Module CommandLine.
Import Argparse Runtime Main Props.

Section WithWorld.
Context {W : Type} {os : OS W} {RE : Regex}.

(** *** How single strings are read *)

Lemma tool_flag_parse argv0 s :
  tool_flag s = true ->
  exists dest,
    _parse_optional (setup_argparse argv0) s
    = inr (Some (OptionTuple (Some (StoreTrueAction dest)) s None)).
Proof.
  unfold tool_flag. cbn [existsb]. intros H.
  repeat (apply orb_true_iff in H; destruct H as [H|H]);
    try discriminate;
    apply String.eqb_eq in H; subst s; eexists; reflexivity.
Qed.

Lemma tool_flag_not_dashes s : tool_flag s = true -> String.eqb s "--" = false.
Proof.
  unfold tool_flag. cbn [existsb]. intros H.
  repeat (apply orb_true_iff in H; destruct H as [H|H]);
    try discriminate;
    apply String.eqb_eq in H; subst s; reflexivity.
Qed.

Lemma is_positional_parse argv0 s :
  is_positional argv0 s = true ->
  _parse_optional (setup_argparse argv0) s = inr None.
Proof.
  unfold is_positional.
  destruct (_parse_optional (setup_argparse argv0) s) as [e|[t|]];
    intros H; try discriminate; reflexivity.
Qed.

(** *** The directory is a string *)

Lemma classify_no_dashes parser argv : forall p,
  classify parser argv = inr p ->
  Forall (fun x => String.eqb (fst x) "--" = false) (before p).
Proof.
  induction argv as [|s argv IH]; intros p; cbn [classify].
  - intros [= <-]. constructor.
  - destruct (String.eqb s "--") eqn:Hs.
    + intros [= <-]. constructor.
    + destruct (_parse_optional parser s) as [e|ot]; [discriminate|].
      destruct (classify parser argv) as [e|p']; [discriminate|].
      intros [= <-]. constructor; [exact Hs | now apply IH].
Qed.

Lemma take_actions_directory parser l : forall st st',
  take_actions parser l st = inr st' -> st_directory st' = st_directory st.
Proof.
  induction l as [|a l IH]; intros st st'; cbn.
  - now intros [= <-].
  - destruct a as [|dest|v]; cbn; try discriminate.
    intros H. now rewrite (IH _ _ H).
Qed.

Lemma consume_optional_directory parser s t st st' :
  consume_optional parser s t st = inr st' ->
  st_directory st' = st_directory st.
Proof.
  unfold consume_optional.
  destruct (ot_action t) as [a|]; [|now intros [= <-]].
  destruct (ot_explicit_arg t) as [e|].
  - destruct (explicit_arg_actions parser a (ot_option_string t) e);
      [discriminate|]. apply take_actions_directory.
  - apply take_actions_directory.
Qed.

Lemma _get_values_single s :
  String.eqb "--" s = false -> _get_values [s] = PyStr s.
Proof. intros H. unfold _get_values. cbn [remove_first]. now rewrite H. Qed.

Lemma consume_loop_str parser l : forall st st' strings,
  Forall (fun x => String.eqb (fst x) "--" = false) l ->
  str_or_unset (st_directory st) ->
  consume_loop parser l st = inr (st', strings) ->
  str_or_unset (st_directory st') /\
  Forall (fun s => String.eqb s "--" = false) strings.
Proof.
  induction l as [|[s p] l IH]; intros st st' strings Hl Hst; cbn [consume_loop].
  - intros [= <- <-]. split; [exact Hst | constructor].
  - inversion Hl as [|x xs Hs Hl']; subst. cbn [fst] in Hs.
    destruct (options_ahead ((s, p) :: l)).
    + destruct p as [|t].
      * destruct (st_directory st) eqn:Hd.
        -- apply IH; [exact Hl'|]. cbn. rewrite Hd. exact Hst.
        -- apply IH; [exact Hl'|]. cbn.
           rewrite _get_values_single; [exact I|].
           now rewrite String.eqb_sym.
      * destruct (consume_optional parser s t st) as [x|st1] eqn:Ho;
          [discriminate|].
        apply IH; [exact Hl'|].
        now rewrite (consume_optional_directory _ _ _ _ _ Ho).
    + intros [= <- <-]. split; [exact Hst|].
      rewrite Forall_forall in *. intros s' Hin.
      change (s :: map fst l) with (map fst ((s, p) :: l)) in Hin.
      apply in_map_iff in Hin. destruct Hin as (x & <- & Hin). now apply Hl.
Qed.

Lemma span_dashes_arguments (l : list string) rest :
  span_dashes (map (fun s => (s, true)) l ++ rest)
  = match l with
    | [] => span_dashes rest
    | _ :: _ => ([], (map (fun s => (s, true)) l ++ rest)%list)
    end.
Proof. destruct l; reflexivity. Qed.

Lemma span_dashes_args (l : list string) :
  span_dashes (map (fun s => (s, true)) l) = ([], map (fun s => (s, true)) l).
Proof. destruct l; reflexivity. Qed.

Lemma consume_tail_str strings dashes st :
  Forall (fun s => String.eqb s "--" = false) strings ->
  str_or_unset (st_directory st) ->
  str_or_unset (st_directory (consume_tail (tail_pattern strings dashes) st)).
Proof.
  intros Hs Hst. unfold consume_tail.
  destruct (st_directory st) as [v|] eqn:Hd.
  { cbn. now rewrite Hd. }
  unfold tail_pattern, match_positional.
  destruct strings as [|s strings].
  - (* the pattern starts with the dashes *)
    destruct dashes as [[|x l]|]; cbn; try now rewrite Hd.
    rewrite span_dashes_args. exact I.
  - inversion Hs as [|y ys Hy Hs']; subst.
    rewrite String.eqb_sym in Hy.
    cbn [map app span_dashes].
    rewrite span_dashes_arguments.
    assert (Hone : _get_values [s] = PyStr s) by now apply _get_values_single.
    assert (Htwo : _get_values [s; "--"] = PyStr s).
    { unfold _get_values. cbn [remove_first]. rewrite Hy. reflexivity. }
    destruct strings as [|s' strings].
    + destruct dashes as [l|].
      * cbn [span_dashes]. rewrite span_dashes_args.
        cbn [st_directory extend_extras store_directory]. now rewrite Htwo.
      * cbn [span_dashes st_directory extend_extras store_directory].
        now rewrite Hone.
    + cbn [st_directory extend_extras store_directory]. now rewrite Hone.
Qed.

(** Whenever the parser accepts the command line, [directory] is a
    string. *)
Lemma parse_args_str parser argv ns :
  Argparse.parse_args parser argv = inr ns ->
  exists d, directory ns = PyStr d.
Proof.
  unfold Argparse.parse_args, _parse_known_args.
  destruct (classify parser argv) as [e|p] eqn:Hc; [discriminate|].
  pose proof (classify_no_dashes _ _ _ Hc) as Hnd.
  destruct (consume_loop parser (before p) initial_state)
    as [x|[st strings]] eqn:Hl; [discriminate|].
  destruct (consume_loop_str parser (before p) initial_state st strings Hnd I Hl)
    as (Hst & Hstr).
  pose proof (consume_tail_str strings (after_dashes p) st Hstr Hst) as Ht.
  destruct (st_directory (consume_tail
                            (tail_pattern strings (after_dashes p)) st))
    as [[d|l]|]; try discriminate; [|destruct Ht].
  destruct (extras _); [|discriminate].
  intros [= <-]. exists d. reflexivity.
Qed.

(** A directory argument followed by any of the tool flags is
    accepted and parsed to that directory and those flags. *)
Lemma parse_args_command_line argv0 d b f p y :
  String.eqb d "--" = false ->
  is_positional argv0 d = true ->
  Argparse.parse_args (setup_argparse argv0) (command_line d b f p y)
  = inr {| directory := PyStr d; bandit := b; flake8 := f; pylint := p;
           pyre := y |}.
Proof.
  intros Hd Hpos.
  pose proof (is_positional_parse _ _ Hpos) as Hp.
  assert (Hv : _get_values [d] = PyStr d).
  { apply _get_values_single. now rewrite String.eqb_sym. }
  unfold Argparse.parse_args, _parse_known_args, command_line.
  destruct b, f, p, y; cbn [app classify]; rewrite Hd, Hp;
    cbn -[_get_values]; rewrite Hv; reflexivity.
Qed.

(** *** Usage errors *)

Lemma lookup_In k m a : lookup k m = Some a -> In (k, a) m.
Proof.
  induction m as [|[k' a'] m IH]; cbn; [discriminate|].
  destruct (String.eqb k k') eqn:E.
  - apply String.eqb_eq in E. subst k'. intros [= ->]. now left.
  - intros H. right. now apply IH.
Qed.

(** An option tuple with an action names an option string of the
    parser with that action. *)
Lemma _get_option_tuples_In parser s l t a :
  _get_option_tuples parser s = inr l ->
  In t l ->
  ot_action t = Some a ->
  In (ot_option_string t, a) (option_string_actions parser).
Proof.
  unfold _get_option_tuples.
  destruct s as [|c0 [|c1 tl]]; try discriminate.
  destruct (Ascii.eqb c0 "-" && Ascii.eqb c1 "-").
  - destruct (Str.split1 "=" (String c0 (String c1 tl))) as [[pre e]|];
      intros [= <-] Hin Ha;
      apply in_flat_map in Hin; destruct Hin as ([os0 a0] & Hin & Ht);
      (destruct (Str.startswith os0 _); [|destruct Ht]);
      destruct Ht as [<-|[]]; cbn in Ha; injection Ha as <-; exact Hin.
  - destruct (Ascii.eqb c0 "-" && negb (Ascii.eqb c1 "-")); [|discriminate].
    intros [= <-] Hin Ha.
    apply in_flat_map in Hin. destruct Hin as ([os0 a0] & Hin & Ht).
    destruct (String.eqb os0 _).
    + destruct Ht as [<-|[]]. cbn in Ha. injection Ha as <-. exact Hin.
    + destruct (Str.startswith os0 _); [|destruct Ht].
      destruct Ht as [<-|[]]. cbn in Ha. injection Ha as <-. exact Hin.
Qed.

Lemma _parse_optional_In parser s t a :
  _parse_optional parser s = inr (Some t) ->
  ot_action t = Some a ->
  In (ot_option_string t, a) (option_string_actions parser).
Proof.
  unfold _parse_optional.
  destruct (String.eqb s ""); [discriminate|].
  destruct (negb (Str.is_dash (Str.char0 s))); [discriminate|].
  destruct (lookup s (option_string_actions parser)) as [a0|] eqn:Hl.
  { intros [= <-]. cbn. intros [= <-]. now apply lookup_In. }
  destruct (String.length s =? 1)%nat; [discriminate|].
  assert (Htuples :
    match _get_option_tuples parser s with
    | inl e => inl e
    | inr [] =>
        if negative_number_matcher s
           && negb (has_negative_number_optionals parser)
        then inr None
        else if Str.contains " " s then inr None
             else inr (Some (OptionTuple None s None))
    | inr [t0] => inr (Some t0)
    | inr (t1 :: t2 :: ts) =>
        inl (AmbiguousOption s (map ot_option_string (t1 :: t2 :: ts)))
    end = inr (Some t) ->
    ot_action t = Some a ->
    In (ot_option_string t, a) (option_string_actions parser)).
  { destruct (_get_option_tuples parser s) as [e|[|t1 [|t2 ts]]] eqn:Hg;
      try discriminate.
    - destruct (negative_number_matcher s
                && negb (has_negative_number_optionals parser));
        [discriminate|].
      destruct (Str.contains " " s); [discriminate|].
      intros [= <-]. discriminate.
    - intros [= <-] Ha.
      apply (_get_option_tuples_In _ _ _ _ _ Hg); [now left | exact Ha]. }
  destruct (Str.split1 "=" s) as [[option_string explicit_arg]|].
  - destruct (lookup option_string (option_string_actions parser))
      as [a1|] eqn:Hl1.
    + intros [= <-]. cbn. intros [= <-]. now apply lookup_In.
    + exact Htuples.
  - exact Htuples.
Qed.


(** The tool flags are long options: a string attached to one of
    them is an error. *)
Lemma store_true_long_option argv0 option_string dest :
  In (option_string, StoreTrueAction dest)
    (option_string_actions (setup_argparse argv0)) ->
  Str.is_dash (Str.char1 option_string) = true.
Proof.
  cbn. intros H.
  repeat (destruct H as [H|H]; [try discriminate; injection H as <- _; reflexivity|]).
  destruct H.
Qed.

Lemma explicit_arg_long_option parser a option_string explicit_arg :
  Str.is_dash (Str.char1 option_string) = true ->
  explicit_arg_actions parser a option_string explicit_arg
  = inl (IgnoredExplicitArgument a explicit_arg).
Proof.
  intros H. destruct explicit_arg; cbn; [reflexivity|].
  rewrite H. reflexivity.
Qed.

Lemma classified_asks argv0 x :
  classified argv0 x ->
  asks_help_or_version argv0 (fst x) = exits_at_once x.
Proof.
  unfold classified, asks_help_or_version, exits_at_once.
  intros ->. destruct (snd x); reflexivity.
Qed.

Lemma classified_unknown argv0 x :
  classified argv0 x ->
  unknown_flag argv0 (fst x) = unknown_option x.
Proof.
  unfold classified, unknown_flag, unknown_option.
  intros ->. destruct (snd x); reflexivity.
Qed.

Lemma classified_positional argv0 x :
  classified argv0 x ->
  is_positional argv0 (fst x) = is_argument x.
Proof.
  unfold classified, is_positional, is_argument.
  intros ->. destruct (snd x); reflexivity.
Qed.

(** [classify] reads the strings in front of the first ['--'] one
    by one. *)
Lemma classify_spec argv0 argv : forall p,
  classify (setup_argparse argv0) argv = inr p ->
  Forall (classified argv0) (before p) /\
  map fst (before p) = options_part argv /\
  has_positional argv0 argv
  = existsb is_argument (before p)
    || match after_dashes p with Some (_ :: _) => true | _ => false end.
Proof.
  induction argv as [|s argv IH]; intros p; cbn [classify].
  - intros [= <-]. cbn. repeat split. constructor.
  - cbn [options_part has_positional].
    destruct (String.eqb s "--").
    + intros [= <-]. cbn. repeat split. constructor.
    + destruct (_parse_optional (setup_argparse argv0) s) as [e|ot] eqn:Hs;
        [discriminate|].
      destruct (classify (setup_argparse argv0) argv) as [e|p'];
        [discriminate|].
      destruct (IH p' eq_refl) as (Hall & Hmap & Hpos).
      intros [= <-]. cbn [before after_dashes map fst existsb].
      split; [|split].
      * constructor; [|exact Hall].
        unfold classified. cbn [fst snd]. rewrite Hs.
        destruct ot; reflexivity.
      * now rewrite Hmap.
      * rewrite Hpos. unfold is_positional. rewrite Hs.
        rewrite orb_assoc. destruct ot; reflexivity.
Qed.

(** An option that is neither help nor version either goes by, or
    is an error. *)
Lemma consume_optional_safe argv0 x t (st : parse_state) :
  classified argv0 x ->
  snd x = O t ->
  exits_at_once x = false ->
  (exists e,
      consume_optional (setup_argparse argv0) (fst x) t st = inl (ExitError e)) \/
  (exists st',
      consume_optional (setup_argparse argv0) (fst x) t st = inr st' /\
      st_directory st' = st_directory st /\
      (extras st <> [] -> extras st' <> []) /\
      (unknown_option x = true -> extras st' <> [])).
Proof.
  unfold classified, exits_at_once, unknown_option, consume_optional.
  intros Hc Hx. rewrite Hx in *. clear Hx.
  destruct (ot_action t) as [a|] eqn:Ha.
  - destruct a as [|dest|v]; try discriminate. intros _.
    pose proof (_parse_optional_In _ _ _ _ Hc Ha) as Hin.
    destruct (ot_explicit_arg t) as [explicit_arg|].
    + left.
      rewrite (explicit_arg_long_option _ _ _ _
                 (store_true_long_option _ _ _ Hin)).
      eexists. reflexivity.
    + right. exists (store_true dest st). cbn.
      repeat split; [auto | discriminate].
  - intros _. right. exists (extend_extras [fst x] st). cbn.
    repeat split; intros _ E; apply app_eq_nil in E; destruct E; discriminate.
Qed.

Lemma is_option_ahead x l :
  In x l -> is_option x = true -> options_ahead l = true.
Proof.
  intros Hin Hx. unfold options_ahead. apply existsb_exists.
  exists x. split; assumption.
Qed.

(** Without help and version the loop ends in an error or runs
    through; what is in [extras] stays there, an unknown option gets
    there, and the positional stays open when no argument comes. *)
Lemma consume_loop_safe argv0 l : forall st,
  Forall (classified argv0) l ->
  Forall (fun x => exits_at_once x = false) l ->
  (exists e, consume_loop (setup_argparse argv0) l st = inl (ExitError e)) \/
  (exists st' strings,
      consume_loop (setup_argparse argv0) l st = inr (st', strings) /\
      (extras st <> [] -> extras st' <> []) /\
      (existsb unknown_option l = true -> extras st' <> []) /\
      (existsb is_argument l = false -> st_directory st = None ->
       st_directory st' = None /\ strings = [])).
Proof.
  induction l as [|[s p] l IH]; intros st Hcl Hsafe.
  - right. exists st, []. cbn. repeat split; auto; discriminate.
  - inversion Hcl as [|x xs Hc Hcl']; subst.
    inversion Hsafe as [|x xs Hs Hsafe']; subst.
    cbn [consume_loop].
    destruct (options_ahead ((s, p) :: l)) eqn:Hahead.
    + destruct p as [|t].
      * (* an argument string *)
        set (st1 := match st_directory st with
                    | None => store_directory (_get_values [s]) st
                    | Some _ => extend_extras [s] st
                    end).
        assert (Hext : extras st <> [] -> extras st1 <> []).
        { subst st1. destruct (st_directory st); cbn; [|auto].
          intros _ E. apply app_eq_nil in E. destruct E. discriminate. }
        assert (Hloop : consume_loop (setup_argparse argv0) l st1
                        = match st_directory st with
                          | None =>
                              consume_loop (setup_argparse argv0) l
                                (store_directory (_get_values [s]) st)
                          | Some _ =>
                              consume_loop (setup_argparse argv0) l
                                (extend_extras [s] st)
                          end).
        { subst st1. destruct (st_directory st); reflexivity. }
        rewrite <- Hloop.
        destruct (IH st1 Hcl' Hsafe')
          as [(e & He)|(st' & strings & He & Hkeep & Hunk & _)].
        -- left. exists e. exact He.
        -- right. exists st', strings. split; [exact He|].
           split; [auto|]. split; [exact Hunk|].
           cbn. discriminate.
      * (* an option string *)
        destruct (consume_optional_safe argv0 (s, O t) t st Hc eq_refl Hs)
          as [(e & He)|(st1 & He & Hdir & Hkeep1 & Hunk1)];
          cbn [fst] in He; rewrite He.
        -- left. exists e. reflexivity.
        -- destruct (IH st1 Hcl' Hsafe')
             as [(e & He')|(st' & strings & He' & Hkeep & Hunk & Hnone)].
           ++ left. exists e. exact He'.
           ++ right. exists st', strings. split; [exact He'|].
              split; [auto|]. split.
              ** cbn [existsb]. intros H. apply orb_true_iff in H.
                 destruct H as [H|H]; auto.
              ** cbn [existsb is_argument snd orb]. intros Hno Hd.
                 apply Hnone; [exact Hno | now rewrite Hdir].
    + (* no option ahead *)
      right. exists st, (map fst ((s, p) :: l)). split; [reflexivity|].
      split; [auto|]. split.
      * intros H. apply existsb_exists in H. destruct H as (x & Hin & Hx).
        rewrite (is_option_ahead x _ Hin) in Hahead; [discriminate|].
        unfold unknown_option in Hx. unfold is_option.
        destruct (snd x); [discriminate | reflexivity].
      * intros H _. cbn [existsb] in H. apply orb_false_iff in H.
        destruct H as (H & _).
        rewrite (is_option_ahead (s, p) ((s, p) :: l)) in Hahead;
          [discriminate | now left |].
        unfold is_argument in H. unfold is_option.
        destruct (snd (s, p)); [discriminate | reflexivity].
Qed.

Lemma consume_tail_extras l (st : parse_state) :
  extras st <> [] -> extras (consume_tail l st) <> [].
Proof.
  intros H. unfold consume_tail.
  destruct (st_directory st); [|destruct (match_positional l) as [[args rest]|]];
    cbn; intros E; apply app_eq_nil in E; destruct E; contradiction.
Qed.

Lemma consume_tail_nothing dashes (st : parse_state) :
  st_directory st = None ->
  match dashes with Some (_ :: _) => false | _ => true end = true ->
  st_directory (consume_tail (tail_pattern [] dashes) st) = None.
Proof.
  intros Hd Hdashes. unfold consume_tail. rewrite Hd.
  destruct dashes as [[|x l]|]; try discriminate; cbn; exact Hd.
Qed.

(** A command line with an unknown option, or with no positional,
    and on which neither help nor version is asked for, is a usage
    error. *)
Lemma usage_error_of argv0 argv :
  Forall (fun s => asks_help_or_version argv0 s = false) (options_part argv) ->
  Exists (fun s => unknown_flag argv0 s = true) (options_part argv) \/
  has_positional argv0 argv = false ->
  exists e, Argparse.parse_args (setup_argparse argv0) argv = inl (ExitError e).
Proof.
  intros Hsafe Hbad.
  unfold Argparse.parse_args, _parse_known_args.
  destruct (classify (setup_argparse argv0) argv) as [e|p] eqn:Hc.
  { exists e. reflexivity. }
  destruct (classify_spec argv0 argv p Hc) as (Hcl & Hmap & Hpos).
  assert (Hsafe' : Forall (fun x => exits_at_once x = false) (before p)).
  { rewrite <- Hmap in Hsafe. rewrite Forall_forall in *.
    intros x Hin. rewrite <- (classified_asks argv0 x (Hcl x Hin)).
    apply Hsafe. now apply in_map. }
  destruct (consume_loop_safe argv0 (before p) initial_state Hcl Hsafe')
    as [(e & He)|(st & strings & He & _ & Hunk & Hnone)]; rewrite He.
  { exists e. reflexivity. }
  set (st' := consume_tail (tail_pattern strings (after_dashes p)) st).
  destruct Hbad as [Hunknown|Hmissing].
  - assert (Hex : extras st' <> []).
    { apply consume_tail_extras. apply Hunk.
      rewrite <- Hmap in Hunknown. apply Exists_exists in Hunknown.
      destruct Hunknown as (s & Hin & Hs).
      apply in_map_iff in Hin. destruct Hin as (x & <- & Hin).
      apply existsb_exists. exists x. split; [exact Hin|].
      rewrite Forall_forall in Hcl.
      now rewrite <- (classified_unknown argv0 x (Hcl x Hin)). }
    destruct (st_directory st') as [d|].
    + destruct (extras st') as [|y ys]; [contradiction|].
      eexists. reflexivity.
    + eexists. reflexivity.
  - rewrite Hpos in Hmissing. apply orb_false_iff in Hmissing.
    destruct Hmissing as (Hargs & Hdashes).
    destruct (Hnone Hargs eq_refl) as (Hdir & ->).
    assert (Hd : st_directory st' = None).
    { apply consume_tail_nothing; [exact Hdir|].
      destruct (after_dashes p) as [[|? ?]|]; [reflexivity | discriminate | reflexivity]. }
    rewrite Hd. eexists. reflexivity.
Qed.

(** C8, as the program has it.  On a command line on which neither
    help (-h, --help) nor version is asked for, an unknown option
    and a missing directory argument are usage errors: argparse
    reports the error, the process exits with the non-zero status
    2, and no child is spawned. *)
Theorem C8_usage_error argv0 argv w :
  Forall (fun s => asks_help_or_version argv0 s = false) (options_part argv) ->
  Exists (fun s => unknown_flag argv0 s = true) (options_part argv) \/
  has_positional argv0 argv = false ->
  exists e,
    python argv0 argv w
    = (2, {| world := w; log := []; spawned := [];
             console := [ExitError e] |}).
Proof.
  intros Hsafe Hbad.
  destruct (usage_error_of argv0 argv Hsafe Hbad) as (e & He).
  exists e. exact (Orchestration.python_exit argv0 argv w _ He).
Qed.

(** C10. A command line that the argument parser rejects ends the
    process with status 2, not with the status 1 of the failures
    that [main] handles; nothing is logged and no child is
    spawned. *)
Theorem C10_rejected_exit_2 argv0 argv w e :
  Argparse.parse_args (setup_argparse argv0) argv = inl (ExitError e) ->
  status argv0 argv w = 2 /\
  status argv0 argv w <> 1 /\
  log (snd (python argv0 argv w)) = [] /\
  spawned (snd (python argv0 argv w)) = [].
Proof.
  intros Hp. unfold status.
  rewrite (Orchestration.python_exit argv0 argv w _ Hp). cbn.
  repeat split. discriminate.
Qed.


(** *** [--version] *)

Lemma option_ahead l1 x t rest :
  options_ahead (l1 ++ (x, O t) :: rest)%list = true.
Proof.
  unfold options_ahead. rewrite existsb_app. cbn. apply orb_true_r.
Qed.

(** In front of other argument strings, strings the loop goes past
    are classified one by one. *)
Lemma classify_app argv0 pre : forall argv,
  Forall (fun s => goes_by argv0 s = true) pre ->
  match classify (setup_argparse argv0) argv with
  | inl e => classify (setup_argparse argv0) (pre ++ argv) = inl e
  | inr p =>
      exists l1,
        classify (setup_argparse argv0) (pre ++ argv)
        = inr {| before := l1 ++ before p; after_dashes := after_dashes p |} /\
        Forall (fun x => passing x = true) l1 /\
        map fst l1 = pre
  end.
Proof.
  intros argv. induction 1 as [|s pre Hs Hall IH].
  - cbn [app]. destruct (classify (setup_argparse argv0) argv) as [e|p];
      [reflexivity|].
    exists []. repeat split; [now destruct p | constructor].
  - unfold goes_by in Hs. apply andb_true_iff in Hs. destruct Hs as [Hd Hs].
    apply negb_true_iff in Hd.
    cbn [app classify]. rewrite Hd.
    destruct (_parse_optional (setup_argparse argv0) s) as [e|r] eqn:Hr;
      [discriminate|].
    destruct (classify (setup_argparse argv0) argv) as [e|p].
    + now rewrite IH.
    + destruct IH as (l1 & -> & Hl1 & Hmap).
      eexists (_ :: l1). split; [reflexivity|]. split.
      * constructor; [|exact Hl1]. unfold passing. cbn [snd].
        destruct r as [t|]; [exact Hs | reflexivity].
      * cbn [map fst]. now rewrite Hmap.
Qed.

Lemma classify_readable argv0 argv :
  Forall (fun s => readable argv0 s = true) (options_part argv) ->
  exists p, classify (setup_argparse argv0) argv = inr p.
Proof.
  induction argv as [|s argv IH]; cbn [options_part classify];
    [eexists; reflexivity|].
  destruct (String.eqb s "--"); [eexists; reflexivity|].
  intros H. inversion H as [|x xs Hs Hrest]; subst.
  unfold readable in Hs.
  destruct (_parse_optional (setup_argparse argv0) s) as [e|r];
    [discriminate|].
  destruct (IH Hrest) as (p & ->). eexists; reflexivity.
Qed.

(** The loop goes past arguments, unknown options and tool flags,
    and leaves at the first option that makes it leave. *)
Lemma consume_loop_passing parser l1 x t rest ex :
  Forall (fun y => passing y = true) l1 ->
  (forall st, consume_optional parser x t st = inl ex) ->
  forall st,
    consume_loop parser (l1 ++ (x, O t) :: rest)%list st = inl ex.
Proof.
  intros Hl Hstop. induction Hl as [|[s p] l1 Hx Hl IH]; intros st.
  - pose proof (option_ahead [] x t rest) as Hahead.
    cbn [app] in Hahead |- *. cbn [consume_loop]. rewrite Hahead.
    now rewrite Hstop.
  - change ((((s, p) :: l1) ++ (x, O t) :: rest)%list)
      with ((s, p) :: (l1 ++ (x, O t) :: rest)%list).
    pose proof (option_ahead ((s, p) :: l1) x t rest) as Hahead.
    change ((((s, p) :: l1) ++ (x, O t) :: rest)%list)
      with ((s, p) :: (l1 ++ (x, O t) :: rest)%list) in Hahead.
    cbn [consume_loop]. rewrite Hahead.
    destruct p as [|t'].
    + destruct (st_directory st); apply IH.
    + unfold passing in Hx. cbn [snd] in Hx. unfold consume_optional.
      destruct (ot_action t') as [[|dest|v]|]; try discriminate.
      * destruct (ot_explicit_arg t'); [discriminate|]. cbn. apply IH.
      * apply IH.
Qed.

(** The one version action of the parser prints [prog 1.0.0]. *)
Lemma version_action_text argv0 option_string v :
  In (option_string, VersionAction v)
    (option_string_actions (setup_argparse argv0)) ->
  percent_prog v (prog (setup_argparse argv0))
  = basename argv0 ++ " " ++ VERSION.
Proof.
  cbn [setup_argparse option_string_actions]. intros H.
  repeat (destruct H as [H|H]; [try discriminate; injection H as _ <-; reflexivity|]).
  destruct H.
Qed.

Lemma consume_version argv0 s t st :
  asks_version argv0 s = true ->
  _parse_optional (setup_argparse argv0) s = inr (Some t) ->
  consume_optional (setup_argparse argv0) s t st
  = inl (ExitVersion (basename argv0 ++ " " ++ VERSION)).
Proof.
  unfold asks_version. intros Hs Hp. rewrite Hp in Hs.
  destruct (ot_action t) as [[|dest|v]|] eqn:Ha; try discriminate.
  destruct (ot_explicit_arg t) eqn:He; [discriminate|].
  unfold consume_optional. rewrite Ha, He.
  cbn [take_actions take_action].
  now rewrite (version_action_text argv0 _ v (_parse_optional_In _ _ _ _ Hp Ha)).
Qed.

Lemma asks_version_option argv0 s :
  asks_version argv0 s = true ->
  String.eqb s "--" = false /\
  exists t, _parse_optional (setup_argparse argv0) s = inr (Some t).
Proof.
  intros Hs. split.
  - destruct (String.eqb s "--") eqn:E; [|reflexivity].
    apply String.eqb_eq in E. subst s. discriminate Hs.
  - unfold asks_version in Hs.
    destruct (_parse_optional (setup_argparse argv0) s) as [e|[t|]];
      try discriminate.
    exists t. reflexivity.
Qed.

(** A version option ends the parse when only strings the loop goes
    past stand before it and the strings behind it can be read. *)
Lemma parse_args_version argv0 pre s post :
  Forall (fun x => goes_by argv0 x = true) pre ->
  asks_version argv0 s = true ->
  Forall (fun x => readable argv0 x = true) (options_part post) ->
  Argparse.parse_args (setup_argparse argv0) (pre ++ s :: post)
  = inl (ExitVersion (basename argv0 ++ " " ++ VERSION)).
Proof.
  intros Hpre Hs Hpost.
  destruct (asks_version_option argv0 s Hs) as (Hd & t & Ht).
  destruct (classify_readable argv0 post Hpost) as (p & Hp).
  pose proof (classify_app argv0 pre (s :: post) Hpre) as Hc.
  cbn [classify] in Hc. rewrite Hd, Ht, Hp in Hc.
  destruct Hc as (l1 & Hc & Hl1 & _). cbn [before after_dashes] in Hc.
  unfold Argparse.parse_args, _parse_known_args. rewrite Hc.
  cbn [before].
  rewrite (consume_loop_passing _ l1 s t _
             (ExitVersion (basename argv0 ++ " " ++ VERSION)) Hl1);
    [reflexivity|].
  intros st. now apply consume_version.
Qed.

(** The only short option is [-h]. *)
Lemma short_option argv0 option_string a :
  In (option_string, a) (option_string_actions (setup_argparse argv0)) ->
  Str.is_dash (Str.char1 option_string) = false ->
  a = HelpAction.
Proof.
  cbn [setup_argparse option_string_actions]. intros H Hshort.
  repeat (destruct H as [H|H];
          [injection H as <- <-; first [reflexivity | discriminate Hshort]|]).
  destruct H.
Qed.

Lemma lookup_short argv0 c a :
  lookup (String "-" (String c EmptyString))
    (option_string_actions (setup_argparse argv0)) = Some a ->
  a = HelpAction.
Proof.
  intros H. apply lookup_In in H.
  cbn [setup_argparse option_string_actions] in H.
  repeat (destruct H as [H|H]; [inversion H; reflexivity|]).
  destruct H.
Qed.

(** The actions of a string of single-dash options: after the first
    one they are all [-h]. *)
Lemma explicit_arg_actions_help argv0 : forall e a option_string l,
  explicit_arg_actions (setup_argparse argv0) a option_string e = inr l ->
  Str.is_dash (Str.char1 option_string) = false /\
  exists l', l = a :: l' /\ Forall (fun a' => a' = HelpAction) l'.
Proof.
  induction e as [|c e IH]; intros a option_string l; cbn [explicit_arg_actions];
    [discriminate|].
  destruct (Str.is_dash (Str.char1 option_string)); cbn [negb]; [discriminate|].
  destruct (lookup (String "-" (String c EmptyString))
              (option_string_actions (setup_argparse argv0))) as [a'|] eqn:Hl;
    [|discriminate].
  pose proof (lookup_short _ _ _ Hl) as ->.
  destruct e as [|c' e'].
  - intros [= <-]. split; [reflexivity|]. eexists. split; [reflexivity|].
    repeat constructor.
  - destruct (explicit_arg_actions (setup_argparse argv0) HelpAction
                (String "-" (String c EmptyString)) (String c' e'))
      as [err|l0] eqn:Hrec; [discriminate|].
    intros [= <-]. split; [reflexivity|].
    destruct (IH _ _ _ Hrec) as (_ & l' & -> & Hl').
    eexists. split; [reflexivity|]. now constructor.
Qed.

(** An option of the parser with something attached prints the help
    or is an error. *)
Lemma consume_optional_attached argv0 s t a e st :
  _parse_optional (setup_argparse argv0) s = inr (Some t) ->
  ot_action t = Some a ->
  ot_explicit_arg t = Some e ->
  consume_optional (setup_argparse argv0) s t st = inl ExitHelp \/
  exists err,
    consume_optional (setup_argparse argv0) s t st = inl (ExitError err).
Proof.
  intros Hp Ha He. unfold consume_optional. rewrite Ha, He.
  destruct (explicit_arg_actions (setup_argparse argv0) a
              (ot_option_string t) e) as [err|l] eqn:Hx.
  - right. exists err. reflexivity.
  - left. destruct (explicit_arg_actions_help _ _ _ _ _ Hx)
      as (Hshort & l' & -> & _).
    now rewrite (short_option argv0 _ a (_parse_optional_In _ _ _ _ Hp Ha) Hshort).
Qed.

(** When the loop leaves with the version, it went past every
    string before the one that asks for it. *)
Lemma consume_loop_version argv0 l text : forall st,
  Forall (classified argv0) l ->
  Forall (fun x => String.eqb (fst x) "--" = false) l ->
  consume_loop (setup_argparse argv0) l st = inl (ExitVersion text) ->
  exists l1 x l2,
    l = (l1 ++ x :: l2)%list /\
    Forall (fun y => goes_by argv0 (fst y) = true) l1 /\
    asks_version argv0 (fst x) = true.
Proof.
  induction l as [|[s p] l IH]; intros st Hcl Hnd; cbn [consume_loop];
    [discriminate|].
  inversion Hcl as [|y ys Hc Hcl']; subst.
  inversion Hnd as [|y ys Hd Hnd']; subst.
  unfold classified in Hc. cbn [fst snd] in Hc, Hd.
  destruct (options_ahead ((s, p) :: l)); [|discriminate].
  assert (Hnext : forall st',
             goes_by argv0 s = true ->
             consume_loop (setup_argparse argv0) l st' = inl (ExitVersion text) ->
             exists l1 x l2,
               ((s, p) :: l = l1 ++ x :: l2)%list /\
               Forall (fun y => goes_by argv0 (fst y) = true) l1 /\
               asks_version argv0 (fst x) = true).
  { intros st' Hs Hloop.
    destruct (IH st' Hcl' Hnd' Hloop) as (l1 & x & l2 & -> & Hl1 & Hx).
    exists ((s, p) :: l1), x, l2. split; [reflexivity|].
    split; [|exact Hx]. constructor; [exact Hs | exact Hl1]. }
  destruct p as [|t].
  - assert (Hs : goes_by argv0 s = true).
    { unfold goes_by. now rewrite Hd, Hc. }
    destruct (st_directory st); apply Hnext; exact Hs.
  - destruct (ot_action t) as [a|] eqn:Ha.
    + destruct (ot_explicit_arg t) as [e|] eqn:He.
      * destruct (consume_optional_attached argv0 s t a e st Hc Ha He)
          as [Hx|(err & Hx)]; rewrite Hx; discriminate.
      * unfold consume_optional. rewrite Ha, He.
        destruct a as [|dest|v]; cbn [take_actions take_action].
        -- discriminate.
        -- apply Hnext. unfold goes_by. now rewrite Hd, Hc, Ha, He.
        -- intros _. exists [], (s, O t), l. split; [reflexivity|].
           split; [constructor|]. unfold asks_version. cbn [fst].
           now rewrite Hc, Ha, He.
    + unfold consume_optional. rewrite Ha.
      apply Hnext. unfold goes_by. now rewrite Hd, Hc, Ha.
Qed.

Lemma options_part_split argv : forall a x b,
  options_part argv = (a ++ x :: b)%list ->
  exists post, argv = (a ++ x :: post)%list /\ options_part post = b.
Proof.
  induction argv as [|s argv IH]; intros a x b; cbn [options_part].
  - intros H. now destruct a.
  - destruct (String.eqb s "--"); [intros H; now destruct a|].
    destruct a as [|a0 a]; cbn [app]; intros [= -> H].
    + exists argv. split; [reflexivity | exact H].
    + destruct (IH _ _ _ H) as (post & -> & Hb).
      exists post. split; [reflexivity | exact Hb].
Qed.

(** The parse leaves with the version only on the command lines of
    [parse_args_version]. *)
Lemma parse_args_version_only argv0 argv text :
  Argparse.parse_args (setup_argparse argv0) argv = inl (ExitVersion text) ->
  exists pre s post,
    argv = (pre ++ s :: post)%list /\
    Forall (fun x => goes_by argv0 x = true) pre /\
    asks_version argv0 s = true /\
    Forall (fun x => readable argv0 x = true) (options_part post).
Proof.
  unfold Argparse.parse_args, _parse_known_args.
  destruct (classify (setup_argparse argv0) argv) as [e|p] eqn:Hc;
    [discriminate|].
  destruct (classify_spec argv0 argv p Hc) as (Hcl & Hmap & _).
  pose proof (classify_no_dashes _ _ _ Hc) as Hnd.
  destruct (consume_loop (setup_argparse argv0) (before p) initial_state)
    as [x|[st strings]] eqn:Hloop.
  - intros [= ->].
    destruct (consume_loop_version argv0 _ text _ Hcl Hnd Hloop)
      as (l1 & x & l2 & Hb & Hl1 & Hx).
    rewrite Hb, map_app in Hmap. cbn [map] in Hmap. symmetry in Hmap.
    destruct (options_part_split _ _ _ _ Hmap) as (post & -> & Hpost).
    exists (map fst l1), (fst x), post. split; [reflexivity|].
    split; [|split; [exact Hx|]].
    + apply Forall_forall. intros y Hy. apply in_map_iff in Hy.
      destruct Hy as (z & <- & Hz). rewrite Forall_forall in Hl1. now apply Hl1.
    + rewrite Hpost. rewrite Hb in Hcl.
      apply Forall_app in Hcl. destruct Hcl as (_ & Hcl).
      inversion Hcl as [|y ys _ Hl2]; subst.
      apply Forall_forall. intros y Hy. apply in_map_iff in Hy.
      destruct Hy as (z & <- & Hz). rewrite Forall_forall in Hl2.
      specialize (Hl2 z Hz). unfold classified in Hl2. unfold readable.
      now rewrite Hl2.
  - destruct (st_directory _); [|discriminate].
    destruct (extras _); discriminate.
Qed.

(** X17.  The parser prints the version, and then [prog 1.0.0], on
    exactly these command lines: some string is read as [--version]
    with nothing attached, the loop goes past every string before
    it, and no option string behind it is ambiguous. *)
Theorem version_exactly_when argv0 argv :
  (forall text,
      Argparse.parse_args (setup_argparse argv0) argv = inl (ExitVersion text) ->
      text = basename argv0 ++ " " ++ VERSION) /\
  (Argparse.parse_args (setup_argparse argv0) argv
   = inl (ExitVersion (basename argv0 ++ " " ++ VERSION)) <->
   exists pre s post,
     argv = (pre ++ s :: post)%list /\
     Forall (fun x => goes_by argv0 x = true) pre /\
     asks_version argv0 s = true /\
     Forall (fun x => readable argv0 x = true) (options_part post)).
Proof.
  split; [|split].
  - intros text H. pose proof H as H'.
    apply parse_args_version_only in H'.
    destruct H' as (pre & s & post & -> & Hpre & Hs & Hpost).
    rewrite (parse_args_version argv0 pre s post Hpre Hs Hpost) in H.
    now injection H as <-.
  - apply parse_args_version_only.
  - intros (pre & s & post & -> & Hpre & Hs & Hpost).
    now apply parse_args_version.
Qed.

(** C6, as the program has it.  [--version], written out or
    abbreviated and with nothing attached, makes the process print
    the version, [prog 1.0.0], exit with status 0, log nothing and
    spawn no child, when the parsing loop gets to it: every argument
    string before it is a positional argument, a tool flag with
    nothing attached or an option the parser does not have (so no
    help option, no ['--'], no ambiguous abbreviation and no flag
    with a value stands before it), and no option string behind it
    is an ambiguous abbreviation.  The tool flags, the directory
    argument and the world do not matter. *)
Theorem C6_version_reached argv0 pre s post w :
  Forall (fun x => goes_by argv0 x = true) pre ->
  asks_version argv0 s = true ->
  Forall (fun x => readable argv0 x = true) (options_part post) ->
  python argv0 (pre ++ s :: post) w
  = (0, {| world := w; log := []; spawned := [];
           console := [ExitVersion (basename argv0 ++ " " ++ VERSION)] |}).
Proof.
  intros Hpre Hs Hpost.
  exact (Orchestration.python_exit argv0 _ w _
           (parse_args_version argv0 pre s post Hpre Hs Hpost)).
Qed.

End WithWorld.

End CommandLine.

(** ** Concrete runs *)

Module Runs.
Import Argparse Runtime Main Props Examples.

(** [main.py src --bandit --flake8 --pylint] with flake8 failing:
    bandit and flake8 are spawned, pylint is not, status 1. *)
Lemma C1_fail_fast_run :
  status "main.py" ["src"; "--bandit"; "--flake8"; "--pylint"] flake8_fails = 1 /\
  @nil (list string * proc_outcome) = [] /\
  exists skipped,
    selected "src" three_tools
    = (map fst [(["bandit"; "-r"; "src"], Exited 0 "bandit: ok" "")]
         ++ ["flake8"; "src"] :: skipped)%list.
Proof.
  apply (Orchestration.C1_fail_fast "main.py"
           ["src"; "--bandit"; "--flake8"; "--pylint"] flake8_fails
           three_tools "src"
           [(["bandit"; "-r"; "src"], Exited 0 "bandit: ok" "")]
           ["flake8"; "src"] 1 "" "flake8: failed" []).
  - vm_compute. reflexivity.
  - reflexivity.
  - vm_compute. reflexivity.
  - vm_compute. reflexivity.
  - discriminate.
Defined.

(** [main.py nowhere --bandit --pyre]: status 1, nothing spawned. *)
Lemma C2_missing_directory_run :
  status "main.py" ["nowhere"; "--bandit"; "--pyre"] src_only = 1 /\
  spawned (snd (python "main.py" ["nowhere"; "--bandit"; "--pyre"] src_only)) = [].
Proof.
  apply (Orchestration.C2_missing_directory "main.py"
           ["nowhere"; "--bandit"; "--pyre"] src_only
           {| directory := PyStr "nowhere"; bandit := true; flake8 := false;
              pylint := false; pyre := true |} "nowhere").
  - vm_compute. reflexivity.
  - reflexivity.
  - vm_compute. reflexivity.
Defined.

(** [main.py src --pyre]: the one child is [pyre check]. *)
Lemma C3_single_tool_run :
  commands "main.py" ["src"; "--pyre"] src_only = [["pyre"; "check"]].
Proof.
  apply (Orchestration.C3_single_tool "main.py" ["src"; "--pyre"] src_only
           {| directory := PyStr "src"; bandit := false; flake8 := false;
              pylint := false; pyre := true |} "src");
    vm_compute; reflexivity.
Defined.

(** [main.py src --bandit --flake8 --pylint --pyre], all tools
    succeeding. *)
Lemma C4_all_tools_run :
  status "main.py" ["src"; "--bandit"; "--flake8"; "--pylint"; "--pyre"] src_only = 0 /\
  commands "main.py" ["src"; "--bandit"; "--flake8"; "--pylint"; "--pyre"] src_only
  = [["bandit"; "-r"; "src"]; ["flake8"; "src"]; ["pylint"; "src"];
     ["pyre"; "check"]].
Proof.
  apply (Orchestration.C4_all_tools "main.py"
           ["src"; "--bandit"; "--flake8"; "--pylint"; "--pyre"] src_only
           {| directory := PyStr "src"; bandit := true; flake8 := true;
              pylint := true; pyre := true |} "src");
    try (vm_compute; reflexivity).
  vm_compute. repeat constructor.
Defined.

(** [main.py src]: status 0, nothing spawned. *)
Lemma C5_no_tool_run :
  status "main.py" ["src"] src_only = 0 /\
  spawned (snd (python "main.py" ["src"] src_only)) = [].
Proof.
  apply (Orchestration.C5_no_tool "main.py" ["src"] src_only
           {| directory := PyStr "src"; bandit := false; flake8 := false;
              pylint := false; pyre := false |} "src");
    vm_compute; reflexivity.
Defined.

(** [main.py src --bogus --ban --version -h --bandit=1 -- --p]: the
    version, status 0; what stands behind [--version] is not looked
    at. *)
Lemma C6_version_reached_run :
  python "/opt/tools/main.py"
    (["src"; "--bogus"; "--ban"]
       ++ "--version" :: ["-h"; "--bandit=1"; "--"; "--p"])%list src_only
  = (0, {| world := src_only; log := []; spawned := [];
           console := [ExitVersion "main.py 1.0.0"] |}).
Proof.
  apply (CommandLine.C6_version_reached "/opt/tools/main.py"
           ["src"; "--bogus"; "--ban"] "--version"
           ["-h"; "--bandit=1"; "--"; "--p"] src_only).
  - repeat constructor.
  - reflexivity.
  - repeat constructor.
Defined.

(** C6 as stated fails on command lines that have [--version]:
    behind [-h] the help is printed; behind a flag with a value, or
    with an ambiguous abbreviation anywhere in front of a ['--'], the
    parser reports a usage error and the status is 2; behind ['--']
    it is the directory argument, so that the status is 1 when there
    is no such directory, and a child is spawned when there is one
    and a tool flag is set. *)
Lemma C6_version_not_reached :
  (In "--version" ["-h"; "--version"] /\
   python "main.py" ["-h"; "--version"] src_only
   = (0, {| world := src_only; log := []; spawned := [];
            console := [ExitHelp] |})) /\
  (In "--version" ["--bandit=1"; "src"; "--version"] /\
   python "main.py" ["--bandit=1"; "src"; "--version"] src_only
   = (2, {| world := src_only; log := []; spawned := [];
            console :=
              [ExitError
                 (IgnoredExplicitArgument (StoreTrueAction Bandit) "1")] |})) /\
  (In "--version" ["--version"; "src"; "--p"] /\
   python "main.py" ["--version"; "src"; "--p"] src_only
   = (2, {| world := src_only; log := []; spawned := [];
            console :=
              [ExitError (AmbiguousOption "--p" ["--pylint"; "--pyre"])] |})) /\
  (In "--version" ["--"; "--version"] /\
   python "main.py" ["--"; "--version"] src_only
   = (1, {| world := src_only;
            log := [directory_missing "--version";
                    error_occurred
                      (FileNotFoundError "Directory not found: --version")];
            spawned := [];
            console := [] |})) /\
  (In "--version" ["--bandit"; "--"; "--version"] /\
   commands "main.py" ["--bandit"; "--"; "--version"]
     {| directories := ["--version"]; failing := [] |}
   = [["bandit"; "-r"; "--version"]] /\
   console (snd (python "main.py" ["--bandit"; "--"; "--version"]
                   {| directories := ["--version"]; failing := [] |}))
   = []).
Proof.
  repeat split; try reflexivity; cbn; auto.
Qed.


(** [main.py src --bogus] and [main.py --bandit]: usage errors. *)
Lemma C8_usage_error_run :
  (exists e,
      python "main.py" ["src"; "--bogus"] src_only
      = (2, {| world := src_only; log := []; spawned := [];
               console := [ExitError e] |})) /\
  (exists e,
      python "main.py" ["--bandit"] src_only
      = (2, {| world := src_only; log := []; spawned := [];
               console := [ExitError e] |})).
Proof.
  split.
  - apply (CommandLine.C8_usage_error "main.py" ["src"; "--bogus"] src_only).
    + repeat constructor.
    + left. right. left. reflexivity.
  - apply (CommandLine.C8_usage_error "main.py" ["--bandit"] src_only).
    + repeat constructor.
    + right. reflexivity.
Defined.

(** C8 as stated fails on [main.py -h], which has no directory
    argument and no --version, and on [main.py --bogus -h] and
    [main.py --bogus --version], which have an unknown option: help or
    the version is printed and the status is 0. *)
Lemma C8_help_exits_0 :
  (has_positional "main.py" ["-h"] = false /\
   ~ In "--version" ["-h"] /\
   python "main.py" ["-h"] src_only
   = (0, {| world := src_only; log := []; spawned := [];
            console := [ExitHelp] |})) /\
  (unknown_flag "main.py" "--bogus" = true /\
   python "main.py" ["--bogus"; "-h"] src_only
   = (0, {| world := src_only; log := []; spawned := [];
            console := [ExitHelp] |}) /\
   python "main.py" ["--bogus"; "--version"] src_only
   = (0, {| world := src_only; log := []; spawned := [];
            console := [ExitVersion "main.py 1.0.0"] |})).
Proof.
  split; [split; [|split]|split; [|split]].
  - reflexivity.
  - intros [H|[]]. discriminate.
  - reflexivity.
  - reflexivity.
  - reflexivity.
  - reflexivity.
Qed.

(** [main.py --bogus src]: rejected, status 2. *)
Lemma C10_rejected_exit_2_run :
  status "main.py" ["--bogus"; "src"] src_only = 2 /\
  status "main.py" ["--bogus"; "src"] src_only <> 1 /\
  log (snd (python "main.py" ["--bogus"; "src"] src_only)) = [] /\
  spawned (snd (python "main.py" ["--bogus"; "src"] src_only)) = [].
Proof.
  apply (CommandLine.C10_rejected_exit_2 "main.py" ["--bogus"; "src"] src_only
           (UnrecognizedArguments ["--bogus"])).
  vm_compute. reflexivity.
Defined.

End Runs.


(** ** More on the run of the tools *)

Module Behaviour.
Import Argparse Runtime Main Props Vocabulary.
Local Open Scope py_scope.

Section WithWorld.
Context {W : Type} {os : OS W} {RE : Regex}.

(** Everything [run_tool] does, by the outcome of the child. *)
Lemma run_tool_effect c (st : process_state W) :
  run_tool c st
  = (tool_result (c, fst (spawn (world st) c)),
     {| world := snd (spawn (world st) c);
        log := log st ++ tool_log (c, fst (spawn (world st) c));
        spawned := spawned st ++ [(c, fst (spawn (world st) c))];
        console := console st |}).
Proof.
  unfold run_tool, try_except, bind, subprocess_run, logger_info,
    logger_error, logger_log, raise, tool_result, tool_log; cbn.
  destruct (spawn (world st) c) as [o w'].
  destruct o as [rc out err|cls m|]; cbn.
  - destruct (rc =? 0); cbn; rewrite <- app_assoc; reflexivity.
  - reflexivity.
  - reflexivity.
Qed.

Lemma tool_result_ok x : exited_zero (snd x) = true -> tool_result x = inr tt.
Proof.
  unfold tool_result, exited_zero. destruct (snd x) as [rc out err|cls m|].
  - now intros ->.
  - discriminate.
  - discriminate.
Qed.

Lemma tool_result_failed x :
  exited_zero (snd x) = false ->
  exists e,
    tool_result x = inl e /\ is_Exception e = negb (interrupted (snd x)).
Proof.
  unfold tool_result, exited_zero. destruct (snd x) as [rc out err|cls m|].
  - intros ->. eexists. split; reflexivity.
  - intros _. eexists. split; reflexivity.
  - intros _. eexists. split; reflexivity.
Qed.

(** The run through a list of commands: what is spawned, what is
    logged, and how it ends. *)
Lemma run_all_step c rest (st : process_state W) :
  run_all (c :: rest) st
  = match tool_result (c, fst (spawn (world st) c)) with
    | inr _ => run_all rest (snd (run_tool c st))
    | inl e => (inl e, snd (run_tool c st))
    end.
Proof.
  cbn [run_all]. unfold bind. rewrite run_tool_effect. cbn [snd].
  destruct (tool_result (c, fst (spawn (world st) c))); reflexivity.
Qed.

Lemma run_all_effect cmds : forall st : process_state W,
  exists tr,
    spawned (snd (run_all cmds st)) = (spawned st ++ tr)%list /\
    log (snd (run_all cmds st)) = (log st ++ flat_map tool_log tr)%list /\
    console (snd (run_all cmds st)) = console st /\
    ((fst (run_all cmds st) = inr tt /\
      Forall (fun x => exited_zero (snd x) = true) tr /\
      map fst tr = cmds) \/
     (exists earlier x,
         tr = (earlier ++ [x])%list /\
         Forall (fun x => exited_zero (snd x) = true) earlier /\
         exited_zero (snd x) = false /\
         fst (run_all cmds st) = tool_result x)).
Proof.
  induction cmds as [|c rest IH]; intros st.
  - exists []. cbn. rewrite !app_nil_r. repeat split. left. repeat split.
    constructor.
  - rewrite run_all_step.
    set (o := fst (spawn (world st) c)).
    assert (Hst1 : snd (run_tool c st)
                   = {| world := snd (spawn (world st) c);
                        log := log st ++ tool_log (c, o);
                        spawned := spawned st ++ [(c, o)];
                        console := console st |}).
    { now rewrite run_tool_effect. }
    destruct (exited_zero o) eqn:Hz.
    + rewrite (tool_result_ok (c, o) Hz).
      destruct (IH (snd (run_tool c st))) as (tr & Hsp & Hlog & Hcon & Hend).
      exists ((c, o) :: tr).
      split; [rewrite Hsp, Hst1; cbn [spawned]; now rewrite <- app_assoc|].
      split; [rewrite Hlog, Hst1; cbn [log flat_map];
              now rewrite <- app_assoc|].
      split; [rewrite Hcon, Hst1; reflexivity|].
      destruct Hend as [(Hr & Hall & Hmap)|(earlier & x & -> & Hall & Hx & Hr)].
      * left. repeat split; [exact Hr | now constructor | cbn; now rewrite Hmap].
      * right. exists ((c, o) :: earlier), x.
        repeat split; [now constructor | exact Hx | exact Hr].
    + destruct (tool_result_failed (c, o) Hz) as (e & He & _).
      rewrite He, Hst1. cbn [fst snd spawned log console].
      exists [(c, o)]. cbn [flat_map]. rewrite app_nil_r. repeat split.
      right. exists [], (c, o). repeat split; [constructor | exact Hz | now rewrite He].
Qed.


Lemma last_exited_zero (tr : list (list string * proc_outcome)) :
  Forall (fun x => exited_zero (snd x) = true) tr ->
  exited_zero (snd (last tr ([], Exited 0 "" ""))) = true.
Proof.
  induction 1 as [|x tr Hx Hall IH]; [reflexivity|].
  destruct tr; [exact Hx | exact IH].
Qed.

Lemma caught_completed (tr : list (list string * proc_outcome)) :
  Forall (fun x => exited_zero (snd x) = true) tr -> caught tr = [].
Proof.
  intros H. unfold caught.
  now rewrite (tool_result_ok _ (last_exited_zero tr H)).
Qed.

Lemma python_caught argv0 argv w ns e :
  Argparse.parse_args (setup_argparse argv0) argv = inr ns ->
  fst (analysis ns w) = inl e ->
  is_Exception e = true ->
  python argv0 argv w
  = (1, {| world := world (snd (analysis ns w));
           log := log (snd (analysis ns w)) ++ [error_occurred e];
           spawned := spawned (snd (analysis ns w));
           console := console (snd (analysis ns w)) |}).
Proof.
  intros Hp Hr He. unfold python, main, bind, Runtime.parse_args, try_except.
  rewrite Hp. fold (analysis ns w).
  destruct (analysis ns w) as [r st]. cbn in Hr. subst r.
  rewrite He. reflexivity.
Qed.

(** The run of the process on an existing directory, in full. *)
Lemma python_on_directory argv0 argv w ns d :
  Argparse.parse_args (setup_argparse argv0) argv = inr ns ->
  directory ns = PyStr d ->
  is_dir w d = true ->
  world (snd (python argv0 argv w))
  = world (snd (run_all (selected d ns) (start w))) /\
  spawned (snd (python argv0 argv w))
  = spawned (snd (run_all (selected d ns) (start w))) /\
  console (snd (python argv0 argv w)) = [] /\
  log (snd (python argv0 argv w))
  = (flat_map tool_log (spawned (snd (python argv0 argv w)))
       ++ caught (spawned (snd (python argv0 argv w))))%list.
Proof.
  intros Hp Hdir Hd.
  assert (Ha : analysis ns w = run_all (selected d ns) (start w)).
  { unfold analysis. rewrite Hdir. now apply Orchestration.analyze_code_run. }
  destruct (run_all_effect (selected d ns) (start w))
    as (tr & Hsp & Hlog & Hcon & Hend).
  cbn [start spawned log console app] in Hsp, Hlog, Hcon.
  rewrite <- Ha in Hsp, Hlog, Hcon, Hend |- *.
  destruct Hend as [(Hr & Hall & _)|(earlier & x & -> & _ & Hx & Hr)].
  - rewrite (Orchestration.python_success _ _ _ _ Hp Hr). cbn [snd].
    rewrite Hsp, Hlog, Hcon, (caught_completed tr Hall), app_nil_r.
    repeat split.
  - destruct (tool_result_failed x Hx) as (e & He & Hexc).
    rewrite He in Hr.
    destruct (interrupted (snd x)); cbn [negb] in Hexc.
    + rewrite (Orchestration.python_uncaught _ _ _ _ _ Hp Hr Hexc).
      cbn [snd]. rewrite Hsp, Hlog, Hcon. unfold caught.
      rewrite last_last, He, Hexc, app_nil_r. repeat split.
    + rewrite (python_caught _ _ _ _ _ Hp Hr Hexc).
      cbn [snd world log spawned console].
      rewrite Hsp, Hlog, Hcon. unfold caught. rewrite last_last, He, Hexc.
      repeat split.
Qed.

(** X2.  Only the selected tools are spawned, in the order of the
    sequence: the commands of the run are a head of it. *)
Theorem spawned_commands_head argv0 argv w ns d :
  Argparse.parse_args (setup_argparse argv0) argv = inr ns ->
  directory ns = PyStr d ->
  exists skipped, selected d ns = (commands argv0 argv w ++ skipped)%list.
Proof.
  intros Hp Hdir. unfold commands.
  destruct (is_dir w d) as [[|]|cls m] eqn:Hd.
  - destruct (Orchestration.python_trace _ _ _ _ _ Hp Hdir Hd)
      as (completed & Hrun & _).
    exact (Orchestration.run_trace_prefix _ _ _ Hrun).
  - destruct (Orchestration.python_no_directory _ _ w _ Hp) as (_ & ->).
    + intros d' E. rewrite Hdir in E. injection E as <-. rewrite Hd.
      discriminate.
    + exists (selected d ns). reflexivity.
  - destruct (Orchestration.python_no_directory _ _ w _ Hp) as (_ & ->).
    + intros d' E. rewrite Hdir in E. injection E as <-. rewrite Hd.
      discriminate.
    + exists (selected d ns). reflexivity.
Qed.

(** X3.  The exit status is 0, 1, 2 or 130: 2 exactly for a usage
    error of the parser, 1 exactly when [analyze_code] raised an
    exception derived from [Exception], which [main] catches, and
    130 exactly when it raised [KeyboardInterrupt], which [main]
    does not catch. *)
Theorem exit_statuses argv0 argv w :
  (status argv0 argv w = 0 \/ status argv0 argv w = 1 \/
   status argv0 argv w = 2 \/ status argv0 argv w = 130) /\
  (status argv0 argv w = 2 <->
   exists e, Argparse.parse_args (setup_argparse argv0) argv = inl (ExitError e)) /\
  (status argv0 argv w = 1 <->
   exists ns e,
     Argparse.parse_args (setup_argparse argv0) argv = inr ns /\
     fst (analysis ns w) = inl e /\
     is_Exception e = true) /\
  (status argv0 argv w = 130 <->
   exists ns,
     Argparse.parse_args (setup_argparse argv0) argv = inr ns /\
     fst (analysis ns w) = inl KeyboardInterrupt).
Proof.
  unfold status.
  destruct (Argparse.parse_args (setup_argparse argv0) argv) as [x|ns] eqn:Hp.
  - rewrite (Orchestration.python_exit _ _ _ _ Hp). cbn [fst].
    destruct x as [|text|e]; cbn; repeat split; auto;
      try (intros H; discriminate H);
      try (intros (e' & H); discriminate H);
      try (intros (ns & H & _); discriminate H);
      try (intros (ns & e' & H & _); discriminate H).
    intros _. exists e. reflexivity.
  - destruct (fst (analysis ns w)) as [e|[]] eqn:Hr.
    + destruct (Orchestration.analysis_raises _ _ _ Hr) as [Hexc| ->].
      * destruct (Orchestration.python_failure _ _ _ _ _ Hp Hr Hexc) as (-> & _).
        repeat split; auto; try (intros H; discriminate H).
        -- intros (e' & H). discriminate H.
        -- intros _. exists ns, e. repeat split; assumption.
        -- intros (ns' & H & He). injection H as <-. rewrite Hr in He.
           injection He as ->. discriminate Hexc.
      * rewrite (Orchestration.python_uncaught _ _ _ _ _ Hp Hr eq_refl).
        cbn [fst exit_code].
        repeat split; auto; try (intros H; discriminate H).
        -- intros (e' & H). discriminate H.
        -- intros (ns' & e & H & He & Hexc). injection H as <-.
           rewrite Hr in He. injection He as <-. discriminate Hexc.
        -- intros _. exists ns. split; [reflexivity | exact Hr].
    + rewrite (Orchestration.python_success _ _ _ _ Hp Hr). cbn [fst].
      repeat split; auto; try (intros H; discriminate H).
      * intros (e' & H). discriminate H.
      * intros (ns' & e & H & He & _). injection H as <-. rewrite Hr in He.
        discriminate He.
      * intros (ns' & H & He). injection H as <-. rewrite Hr in He.
        discriminate He.
Qed.

(** X4.  Once the command line is accepted, the status is 0 exactly
    when the directory exists and every child that was spawned exited
    with 0; then every selected tool was spawned, in the order of the
    sequence. *)
Theorem success_iff argv0 argv w ns d :
  Argparse.parse_args (setup_argparse argv0) argv = inr ns ->
  directory ns = PyStr d ->
  (status argv0 argv w = 0 <->
   is_dir w d = true /\
   Forall (fun x => exited_zero (snd x) = true)
     (spawned (snd (python argv0 argv w)))) /\
  (status argv0 argv w = 0 -> commands argv0 argv w = selected d ns).
Proof.
  intros Hp Hdir.
  assert (Hnot : is_dir w d <> true -> status argv0 argv w <> 0).
  { intros Hd Hs.
    destruct (Orchestration.python_no_directory _ _ w _ Hp) as (Hone & _).
    - intros d' E. rewrite Hdir in E. injection E as <-. exact Hd.
    - rewrite Hs in Hone. discriminate. }
  assert (Hzero : status argv0 argv w = 0 ->
                  is_dir w d = true /\
                  Forall (fun x => exited_zero (snd x) = true)
                    (spawned (snd (python argv0 argv w))) /\
                  commands argv0 argv w = selected d ns).
  { intros Hs. destruct (is_dir w d) as [[|]|cls m] eqn:Hd.
    - destruct (Orchestration.python_trace _ _ _ _ _ Hp Hdir Hd)
        as (completed & Hrun & Hst).
      rewrite Hs in Hst. destruct completed.
      + destruct (Orchestration.run_trace_true _ _ Hrun) as (Hm & Hall).
        repeat split; assumption.
      + destruct (interrupted _) in Hst; discriminate.
    - now destruct (Hnot ltac:(discriminate) Hs).
    - now destruct (Hnot ltac:(discriminate) Hs). }
  split; [split|].
  - intros Hs. destruct (Hzero Hs) as (Hd & Hall & _). split; assumption.
  - intros (Hd & Hall).
    destruct (Orchestration.python_trace _ _ _ _ _ Hp Hdir Hd)
      as (completed & Hrun & Hst).
    destruct (Orchestration.run_trace_completed _ _ _ Hrun Hall) as (-> & _).
    exact Hst.
  - intros Hs. now destruct (Hzero Hs) as (_ & _ & Hc).
Qed.

(** X5.  On an existing directory the log is given by the children
    of the run: the records of each tool in turn, by its outcome, and
    after a failure that [main] catches the error it caught.  Argparse
    prints nothing. *)
Theorem log_of_run argv0 argv w ns d :
  Argparse.parse_args (setup_argparse argv0) argv = inr ns ->
  directory ns = PyStr d ->
  is_dir w d = true ->
  log (snd (python argv0 argv w))
  = (flat_map tool_log (spawned (snd (python argv0 argv w)))
       ++ caught (spawned (snd (python argv0 argv w))))%list /\
  console (snd (python argv0 argv w)) = [].
Proof.
  intros Hp Hdir Hd.
  destruct (python_on_directory _ _ _ _ _ Hp Hdir Hd) as (_ & _ & Hc & Hl).
  split; assumption.
Qed.

(** X6.  A tool that cannot be run at all ([subprocess.run] raises
    an exception derived from [Exception] that is not
    [CalledProcessError]: the program is missing, the output does not
    decode) ends the run like a failing one, with status 1, but its
    exception reaches [main] as it is and [run_tool] logs no error
    for it. *)
Theorem tool_not_started argv0 argv w ns d earlier c cls m later :
  Argparse.parse_args (setup_argparse argv0) argv = inr ns ->
  directory ns = PyStr d ->
  is_dir w d = true ->
  spawned (snd (python argv0 argv w))
  = (earlier ++ (c, Raised cls m) :: later)%list ->
  later = [] /\
  status argv0 argv w = 1 /\
  log (snd (python argv0 argv w))
  = (flat_map tool_log earlier
       ++ [running c; error_occurred (OtherException cls m)])%list.
Proof.
  intros Hp Hdir Hd Hsp.
  destruct (Orchestration.python_trace _ _ _ _ _ Hp Hdir Hd)
    as (completed & Hrun & Hst).
  destruct (Orchestration.run_trace_failure _ _ _ _ _ _ _ Hrun Hsp eq_refl)
    as (-> & -> & _).
  destruct (python_on_directory _ _ _ _ _ Hp Hdir Hd) as (_ & _ & _ & Hl).
  split; [reflexivity|]. split.
  - rewrite Hst, Hsp, last_last. reflexivity.
  - rewrite Hl, Hsp, flat_map_app. unfold caught. rewrite last_last.
    cbn. now rewrite <- app_assoc.
Qed.

(** X15.  A [KeyboardInterrupt] while a tool runs is not a failure
    that [main] handles: it passes [run_tool] and [main], the run
    stops at that tool, the process ends with status 130 and the log
    ends with the record that the command is running; no error is
    logged. *)
Theorem tool_interrupted argv0 argv w ns d earlier c later :
  Argparse.parse_args (setup_argparse argv0) argv = inr ns ->
  directory ns = PyStr d ->
  is_dir w d = true ->
  spawned (snd (python argv0 argv w))
  = (earlier ++ (c, Interrupted) :: later)%list ->
  later = [] /\
  status argv0 argv w = 130 /\
  log (snd (python argv0 argv w))
  = (flat_map tool_log earlier ++ [running c])%list.
Proof.
  intros Hp Hdir Hd Hsp.
  destruct (Orchestration.python_trace _ _ _ _ _ Hp Hdir Hd)
    as (completed & Hrun & Hst).
  destruct (Orchestration.run_trace_failure _ _ _ _ _ _ _ Hrun Hsp eq_refl)
    as (-> & -> & _).
  destruct (python_on_directory _ _ _ _ _ Hp Hdir Hd) as (_ & _ & _ & Hl).
  split; [reflexivity|]. split.
  - rewrite Hst, Hsp, last_last. reflexivity.
  - rewrite Hl, Hsp, flat_map_app. unfold caught. rewrite last_last.
    cbn. now rewrite app_nil_r.
Qed.

(** X7.  A directory argument for which [is_dir()] returns [False],
    in full: status 1, two error records (the directory, then the
    exception [main] caught), no child, nothing printed, the world
    untouched. *)
Theorem missing_directory_run argv0 argv w ns d :
  Argparse.parse_args (setup_argparse argv0) argv = inr ns ->
  directory ns = PyStr d ->
  is_dir w d = false ->
  python argv0 argv w
  = (1, {| world := w;
           log := [directory_missing d;
                   error_occurred
                     (FileNotFoundError ("Directory not found: " ++ d))];
           spawned := [];
           console := [] |}).
Proof.
  intros Hp Hdir Hd.
  unfold python, main, bind, Runtime.parse_args, try_except.
  rewrite Hp, Hdir.
  unfold analyze_code, Path, Path_is_dir, bind, ret, logger_error,
    logger_log, raise, sys_exit.
  cbn [start world]. rewrite Hd. reflexivity.
Qed.

(** X16.  When [is_dir()] itself raises (an [OSError] of [stat] that
    it does not take for a missing path), [analyze_code] stops at the
    check before it logs anything: status 1, the one error record of
    [main] with that exception, no child, nothing printed. *)
Theorem directory_check_raises argv0 argv w ns d cls m :
  Argparse.parse_args (setup_argparse argv0) argv = inr ns ->
  directory ns = PyStr d ->
  is_dir w d = Raises cls m ->
  python argv0 argv w
  = (1, {| world := w;
           log := [error_occurred (OtherException cls m)];
           spawned := [];
           console := [] |}).
Proof.
  intros Hp Hdir Hd.
  unfold python, main, bind, Runtime.parse_args, try_except.
  rewrite Hp, Hdir.
  unfold analyze_code, Path, Path_is_dir, bind, ret, logger_error,
    logger_log, raise, sys_exit.
  cbn [start world]. rewrite Hd. reflexivity.
Qed.

End WithWorld.

End Behaviour.


(** ** More on the command line *)

Module Parser.
Import Argparse Runtime Main Props Vocabulary.

Section WithRegex.
Context {W : Type} {os : OS W} {RE : Regex}.

(** *** Directory arguments and tool flags in any order *)

Lemma tool_flag_dest s : tool_flag s = true -> exists dest, s = flag_of dest.
Proof.
  unfold tool_flag. cbn [existsb]. intros H.
  repeat (apply orb_true_iff in H; destruct H as [H|H]);
    try discriminate; apply String.eqb_eq in H; subst s;
    [exists Bandit | exists Flake8 | exists Pylint | exists Pyre]; reflexivity.
Qed.

Lemma flag_of_parse argv0 dest :
  _parse_optional (setup_argparse argv0) (flag_of dest)
  = inr (Some (OptionTuple (Some (StoreTrueAction dest)) (flag_of dest) None)).
Proof. destruct dest; reflexivity. Qed.

Lemma flag_of_eqb d dest :
  String.eqb (flag_of d) (flag_of dest) = tool_eqb dest d.
Proof. destruct d, dest; reflexivity. Qed.

Lemma positional_not_flag argv0 s d :
  is_positional argv0 s = true -> String.eqb (flag_of d) s = false.
Proof.
  intros Hpos. destruct (String.eqb (flag_of d) s) eqn:E; [|reflexivity].
  apply String.eqb_eq in E. subst s. unfold is_positional in Hpos.
  rewrite flag_of_parse in Hpos. discriminate.
Qed.

Lemma classify_words argv0 argv :
  Forall (fun s => plain_word argv0 s = true) argv ->
  exists l,
    classify (setup_argparse argv0) argv
    = inr {| before := l; after_dashes := None |} /\
    Forall flag_pattern l /\
    arguments_of l = filter (is_positional argv0) argv /\
    forall d, existsb (stores d) l = given (flag_of d) argv.
Proof.
  induction 1 as [|s argv Hs Hall (l & Hc & Hl & Ha & Hf)].
  - exists []. repeat split. constructor.
  - unfold plain_word in Hs. apply orb_true_iff in Hs. destruct Hs as [Hs|Hs].
    + (* a tool flag *)
      destruct (tool_flag_dest s Hs) as (dest & ->).
      exists ((flag_of dest, O (OptionTuple (Some (StoreTrueAction dest))
                                  (flag_of dest) None)) :: l).
      cbn [classify].
      rewrite (CommandLine.tool_flag_not_dashes _ Hs), flag_of_parse, Hc.
      repeat split.
      * constructor; [|exact Hl]. exists dest. reflexivity.
      * unfold arguments_of in *. cbn [filter is_argument snd].
        unfold is_positional. rewrite flag_of_parse. exact Ha.
      * intros d. cbn [existsb given]. unfold given in Hf.
        rewrite Hf. unfold stores. cbn [snd ot_action].
        now rewrite flag_of_eqb.
    + (* a positional *)
      apply andb_true_iff in Hs. destruct Hs as [Hd Hpos].
      apply negb_true_iff in Hd.
      exists ((s, A) :: l). cbn [classify].
      rewrite Hd, (CommandLine.is_positional_parse _ _ Hpos), Hc.
      repeat split.
      * constructor; [|exact Hl]. unfold flag_pattern. cbn [fst snd].
        now rewrite String.eqb_sym.
      * unfold arguments_of in *. cbn [filter is_argument snd].
        rewrite Hpos. cbn [map fst]. now rewrite Ha.
      * intros d. cbn [existsb given]. unfold given in Hf.
        rewrite Hf. unfold stores at 1. cbn [snd].
        now rewrite (positional_not_flag argv0 s d Hpos).
Qed.

Lemma map_fst_arguments (strings : list string) :
  map fst (map (fun s : string => (s, true)) strings) = strings.
Proof.
  induction strings as [|s strings IH]; [reflexivity|]. cbn. now rewrite IH.
Qed.

(** [consume_positionals] behind the last option when there is no
    ['--']: the first string is the positional if that is still
    open, the others are extras. *)
Lemma consume_tail_arguments strings (st : parse_state) :
  Forall (fun s => String.eqb "--" s = false) strings ->
  st_directory (consume_tail (tail_pattern strings None) st)
  = match st_directory st with
    | Some v => Some v
    | None => match strings with [] => None | s :: _ => Some (PyStr s) end
    end /\
  extras (consume_tail (tail_pattern strings None) st)
  = (extras st ++ match st_directory st with
                  | Some _ => strings
                  | None => tl strings
                  end)%list /\
  forall d, st_flag d (consume_tail (tail_pattern strings None) st) = st_flag d st.
Proof.
  intros Hs. unfold consume_tail, tail_pattern. rewrite app_nil_r.
  destruct (st_directory st) as [v|] eqn:Hd.
  - cbn. rewrite Hd, map_fst_arguments. repeat split; intros; now destruct d.
  - destruct strings as [|s strings].
    + cbn. rewrite Hd. repeat split; intros; now destruct d.
    + inversion Hs as [|x xs Hx Hs']; subst.
      unfold match_positional. cbn [map span_dashes].
      rewrite CommandLine.span_dashes_args.
      cbn [app]. rewrite (CommandLine._get_values_single s Hx).
      cbn. rewrite map_fst_arguments. repeat split; intros; now destruct d.
Qed.

Lemma no_option_ahead l :
  options_ahead l = false ->
  arguments_of l = map fst l /\ forall d, existsb (stores d) l = false.
Proof.
  unfold options_ahead, arguments_of.
  induction l as [|[s p] l IH]; cbn; [now split|].
  destruct p as [|t]; cbn; [|discriminate].
  intros H. destruct (IH H) as (-> & Hno). split; [reflexivity | exact Hno].
Qed.

Lemma flag_pattern_strings l :
  Forall flag_pattern l ->
  options_ahead l = false ->
  Forall (fun s => String.eqb "--" s = false) (map fst l).
Proof.
  unfold options_ahead.
  induction 1 as [|[s p] l Hx Hall IH]; cbn; [constructor|].
  destruct p as [|t]; cbn; [|discriminate].
  intros H. constructor; [exact Hx | now apply IH].
Qed.

Lemma st_flag_store_true dest d st :
  st_flag d (store_true dest st) = st_flag d st || tool_eqb dest d.
Proof.
  destruct dest, d; cbn; try now rewrite orb_false_r.
  all: now rewrite orb_true_r.
Qed.

(** The whole parse of a list of directory arguments and tool flags:
    the first argument is the positional, the other ones are extras,
    and each flag that occurs is set. *)
Lemma consume_words argv0 l : forall st,
  Forall flag_pattern l ->
  exists st1 strings,
    consume_loop (setup_argparse argv0) l st = inr (st1, strings) /\
    st_directory (consume_tail (tail_pattern strings None) st1)
    = match st_directory st with
      | Some v => Some v
      | None =>
          match arguments_of l with [] => None | s :: _ => Some (PyStr s) end
      end /\
    extras (consume_tail (tail_pattern strings None) st1)
    = (extras st ++ match st_directory st with
                    | Some _ => arguments_of l
                    | None => tl (arguments_of l)
                    end)%list /\
    forall d,
      st_flag d (consume_tail (tail_pattern strings None) st1)
      = st_flag d st || existsb (stores d) l.
Proof.
  induction l as [|[s p] l IH]; intros st Hl.
  - exists st, []. split; [reflexivity|].
    destruct (consume_tail_arguments [] st (Forall_nil _)) as (Hd & He & Hf).
    rewrite Hd, He. repeat split.
    intros d. rewrite Hf. cbn. now rewrite orb_false_r.
  - cbn [consume_loop].
    destruct (options_ahead ((s, p) :: l)) eqn:Hahead.
    + inversion Hl as [|x xs Hx Hl']; subst.
      destruct p as [|t].
      * (* an argument *)
        unfold flag_pattern in Hx. cbn [fst snd] in Hx.
        rewrite (CommandLine._get_values_single s Hx).
        destruct (st_directory st) as [v|] eqn:Hdir.
        -- destruct (IH (extend_extras [s] st) Hl')
             as (st1 & strings & Hc & Hd & He & Hf).
           exists st1, strings. split; [exact Hc|].
           cbn [st_directory extend_extras extras] in Hd, He.
           rewrite Hdir in Hd, He. rewrite Hd, He. repeat split.
           ++ unfold arguments_of. cbn. now rewrite <- app_assoc.
           ++ intros d. rewrite Hf. unfold stores at 2. cbn.
              now destruct d.
        -- destruct (IH (store_directory (PyStr s) st) Hl')
             as (st1 & strings & Hc & Hd & He & Hf).
           exists st1, strings. split; [exact Hc|].
           cbn [st_directory store_directory extras] in Hd, He.
           rewrite Hd, He. repeat split.
           intros d. rewrite Hf. unfold stores at 2. cbn.
           now destruct d.
      * (* a tool flag *)
        unfold flag_pattern in Hx. cbn [fst snd] in Hx.
        destruct Hx as (dest & ->).
        cbn [consume_optional ot_action ot_explicit_arg take_actions take_action].
        destruct (IH (store_true dest st) Hl')
          as (st1 & strings & Hc & Hd & He & Hf).
        exists st1, strings. split; [exact Hc|].
        cbn [st_directory store_true extras] in Hd, He.
        rewrite Hd, He. repeat split.
        intros d. rewrite Hf, st_flag_store_true. cbn [existsb].
        unfold stores at 2. cbn [snd ot_action].
        now rewrite orb_assoc.
    + (* no option ahead: the strings are left to consume_positionals *)
      exists st, (map fst ((s, p) :: l)). split; [reflexivity|].
      destruct (no_option_ahead _ Hahead) as (Ha & Hno).
      destruct (consume_tail_arguments (map fst ((s, p) :: l)) st
                  (flag_pattern_strings _ Hl Hahead)) as (Hd & He & Hf).
      rewrite Hd, He, Ha. repeat split.
      intros d. rewrite Hf, Hno. now rewrite orb_false_r.
Qed.

(** X1.  A command line of directory arguments and tool flags, in any
    order and number: without a directory argument it is a usage
    error; with one it is accepted, whatever the places of the flags
    and however often they are repeated; with more, the second and
    later ones are unrecognized arguments. *)
Theorem parse_args_words argv0 argv :
  Forall (fun s => plain_word argv0 s = true) argv ->
  Argparse.parse_args (setup_argparse argv0) argv
  = match filter (is_positional argv0) argv with
    | [] => inl (ExitError (RequiredArguments ["directory"]))
    | [d] =>
        inr {| directory := PyStr d;
               bandit := given "--bandit" argv;
               flake8 := given "--flake8" argv;
               pylint := given "--pylint" argv;
               pyre := given "--pyre" argv |}
    | _ :: more => inl (ExitError (UnrecognizedArguments more))
    end.
Proof.
  intros Hall.
  destruct (classify_words argv0 argv Hall) as (l & Hc & Hl & Ha & Hg).
  destruct (consume_words argv0 l initial_state Hl)
    as (st1 & strings & Hloop & Hd & He & Hf).
  unfold Argparse.parse_args, _parse_known_args.
  rewrite Hc. cbn [before after_dashes]. rewrite Hloop.
  cbn [st_directory initial_state extras app] in Hd, He.
  rewrite Ha in Hd, He.
  pose proof (Hf Bandit) as Hb. pose proof (Hf Flake8) as Hf8.
  pose proof (Hf Pylint) as Hpl. pose proof (Hf Pyre) as Hpy.
  cbn [st_flag initial_state orb] in Hb, Hf8, Hpl, Hpy.
  rewrite Hg in Hb, Hf8, Hpl, Hpy.
  rewrite Hd, He, Hb, Hf8, Hpl, Hpy.
  destruct (filter (is_positional argv0) argv) as [|d [|m more]]; reflexivity.
Qed.


(** *** Behind ['--'] *)


(** *** The first of help, version and errors *)

Lemma classify_after_words argv0 pre : forall argv,
  Forall (fun s => plain_word argv0 s = true) pre ->
  match classify (setup_argparse argv0) argv with
  | inl e => classify (setup_argparse argv0) (pre ++ argv) = inl e
  | inr p =>
      exists l1,
        classify (setup_argparse argv0) (pre ++ argv)
        = inr {| before := l1 ++ before p; after_dashes := after_dashes p |} /\
        Forall flag_pattern l1
  end.
Proof.
  intros argv. induction 1 as [|s pre Hs Hall IH].
  - cbn [app]. destruct (classify (setup_argparse argv0) argv) as [e|p];
      [reflexivity|].
    exists []. split; [now destruct p | constructor].
  - unfold plain_word in Hs. apply orb_true_iff in Hs.
    cbn [app classify].
    destruct Hs as [Hs|Hs].
    + destruct (tool_flag_dest s Hs) as (dest & ->).
      rewrite (CommandLine.tool_flag_not_dashes _ Hs), flag_of_parse.
      destruct (classify (setup_argparse argv0) argv) as [e|p].
      * now rewrite IH.
      * destruct IH as (l1 & -> & Hl1).
        eexists (_ :: l1). split; [reflexivity|].
        constructor; [|exact Hl1]. exists dest. reflexivity.
    + apply andb_true_iff in Hs. destruct Hs as [Hd Hpos].
      apply negb_true_iff in Hd.
      rewrite Hd, (CommandLine.is_positional_parse _ _ Hpos).
      destruct (classify (setup_argparse argv0) argv) as [e|p].
      * now rewrite IH.
      * destruct IH as (l1 & -> & Hl1).
        eexists (_ :: l1). split; [reflexivity|].
        constructor; [|exact Hl1]. unfold flag_pattern. cbn [fst snd].
        now rewrite String.eqb_sym.
Qed.

Lemma classify_surface argv0 argv :
  Forall (fun s => surface_word argv0 s = true) argv ->
  exists p, classify (setup_argparse argv0) argv = inr p.
Proof.
  induction 1 as [|s argv Hs Hall (p & IH)]; [eexists; reflexivity|].
  cbn [classify]. destruct (String.eqb s "--"); [eexists; reflexivity|].
  assert (Hparse : exists r, _parse_optional (setup_argparse argv0) s = inr r).
  { unfold surface_word, plain_argument, is_help in Hs.
    apply orb_true_iff in Hs. destruct Hs as [Hs|Hs];
      [apply orb_true_iff in Hs; destruct Hs as [Hs|Hs];
       [apply orb_true_iff in Hs; destruct Hs as [Hs|Hs]|]
      |apply orb_true_iff in Hs; destruct Hs as [Hs|Hs]].
    - destruct (tool_flag_dest s Hs) as (dest & ->). rewrite flag_of_parse.
      eexists; reflexivity.
    - apply String.eqb_eq in Hs. subst s. eexists; reflexivity.
    - apply andb_true_iff in Hs. destruct Hs as [_ Hpos].
      rewrite (CommandLine.is_positional_parse _ _ Hpos). eexists; reflexivity.
    - apply String.eqb_eq in Hs. subst s. eexists; reflexivity.
    - apply String.eqb_eq in Hs. subst s. eexists; reflexivity. }
  destruct Hparse as (r & ->). rewrite IH. eexists; reflexivity.
Qed.

Lemma options_ahead_app l1 x t rest :
  options_ahead (l1 ++ (x, O t) :: rest)%list = true.
Proof.
  unfold options_ahead. rewrite existsb_app. cbn. apply orb_true_r.
Qed.

(** The loop goes through directory arguments and tool flags and
    leaves at the first option that makes it leave. *)
Lemma consume_loop_stops argv0 l1 x t rest ex :
  Forall flag_pattern l1 ->
  (forall st, consume_optional (setup_argparse argv0) x t st = inl ex) ->
  forall st,
    consume_loop (setup_argparse argv0) (l1 ++ (x, O t) :: rest)%list st
    = inl ex.
Proof.
  intros Hl Hstop. induction Hl as [|[s p] l1 Hx Hl IH]; intros st.
  - pose proof (options_ahead_app [] x t rest) as Hahead.
    cbn [app] in Hahead |- *. cbn [consume_loop]. rewrite Hahead.
    now rewrite Hstop.
  - change ((((s, p) :: l1) ++ (x, O t) :: rest)%list)
      with ((s, p) :: (l1 ++ (x, O t) :: rest)%list).
    pose proof (options_ahead_app ((s, p) :: l1) x t rest) as Hahead.
    change ((((s, p) :: l1) ++ (x, O t) :: rest)%list)
      with ((s, p) :: (l1 ++ (x, O t) :: rest)%list) in Hahead.
    cbn [consume_loop]. rewrite Hahead.
    destruct p as [|t'].
    + destruct (st_directory st); apply IH.
    + unfold flag_pattern in Hx. cbn [fst snd] in Hx. destruct Hx as (dest & ->).
      cbn [consume_optional ot_action ot_explicit_arg take_actions take_action].
      apply IH.
Qed.

(** An argument string that ends the parse when the loop reaches it
    ends the parse of a command line in which only directory
    arguments and tool flags come before it. *)
Lemma parse_args_stops argv0 pre x t post ex :
  Forall (fun s => plain_word argv0 s = true) pre ->
  String.eqb x "--" = false ->
  _parse_optional (setup_argparse argv0) x = inr (Some t) ->
  (forall st, consume_optional (setup_argparse argv0) x t st = inl ex) ->
  Forall (fun s => surface_word argv0 s = true) post ->
  Argparse.parse_args (setup_argparse argv0) (pre ++ x :: post) = inl ex.
Proof.
  intros Hpre Hx Hparse Hstop Hpost.
  destruct (classify_surface argv0 post Hpost) as (p & Hp).
  pose proof (classify_after_words argv0 pre (x :: post) Hpre) as Hc.
  cbn [classify] in Hc. rewrite Hx, Hparse, Hp in Hc.
  destruct Hc as (l1 & Hc & Hl1). cbn [before after_dashes] in Hc.
  unfold Argparse.parse_args, _parse_known_args. rewrite Hc.
  cbn [before]. now rewrite (consume_loop_stops argv0 l1 x t _ ex Hl1 Hstop).
Qed.

(** X9.  Of [-h], [--help] and [--version] the first one on the command
    line decides: the process prints the help or the version, exits
    with status 0, logs nothing and spawns nothing, whatever comes
    after it. *)
Theorem first_help_or_version argv0 pre s post (w : W) :
  Forall (fun x => plain_word argv0 x = true) pre ->
  is_help s = true \/ s = "--version" ->
  Forall (fun x => surface_word argv0 x = true) post ->
  python argv0 (pre ++ s :: post) w
  = (0, {| world := w; log := []; spawned := [];
           console := [exit_of argv0 s] |}).
Proof.
  intros Hpre Hs Hpost.
  assert (Hparse : Argparse.parse_args (setup_argparse argv0) (pre ++ s :: post)
                   = inl (exit_of argv0 s)).
  { destruct Hs as [Hs| ->].
    - unfold exit_of. rewrite Hs. unfold is_help in Hs.
      apply orb_true_iff in Hs.
      destruct Hs as [Hs|Hs]; apply String.eqb_eq in Hs; subst s;
        eapply parse_args_stops; try eassumption; reflexivity.
    - eapply parse_args_stops; try eassumption; reflexivity. }
  rewrite (Orchestration.python_exit argv0 _ w _ Hparse).
  unfold exit_of. destruct (is_help s); reflexivity.
Qed.


(** *** Values and abbreviations of the tool flags *)

Lemma flag_of_long dest : Str.is_dash (Str.char1 (flag_of dest)) = true.
Proof. destruct dest; reflexivity. Qed.

(** X10.  A tool flag takes no value: [--bandit=x] is a usage error,
    whatever [x] is, also the empty string. *)
Theorem flag_with_value argv0 pre dest e post (w : W) :
  Forall (fun x => plain_word argv0 x = true) pre ->
  Forall (fun x => surface_word argv0 x = true) post ->
  python argv0 (pre ++ (flag_of dest ++ "=" ++ e) :: post) w
  = (2, {| world := w; log := []; spawned := [];
           console :=
             [ExitError (IgnoredExplicitArgument (StoreTrueAction dest) e)] |}).
Proof.
  intros Hpre Hpost.
  apply (Orchestration.python_exit argv0 _ w
           (ExitError (IgnoredExplicitArgument (StoreTrueAction dest) e))).
  apply (parse_args_stops argv0 pre (flag_of dest ++ "=" ++ e)
           (OptionTuple (Some (StoreTrueAction dest)) (flag_of dest) (Some e)));
    try assumption.
  - destruct dest; reflexivity.
  - destruct dest; reflexivity.
  - intros st. unfold consume_optional. cbn [ot_action ot_explicit_arg ot_option_string].
    now rewrite (CommandLine.explicit_arg_long_option _ _ _ _ (flag_of_long dest)).
Qed.

(** X11.  [--p] and [--py] abbreviate both [--pylint] and [--pyre]: the
    parser rejects them as ambiguous, whatever comes after them. *)
Theorem ambiguous_abbreviation argv0 pre s post (w : W) :
  Forall (fun x => plain_word argv0 x = true) pre ->
  s = "--p" \/ s = "--py" ->
  python argv0 (pre ++ s :: post) w
  = (2, {| world := w; log := []; spawned := [];
           console :=
             [ExitError (AmbiguousOption s ["--pylint"; "--pyre"])] |}).
Proof.
  intros Hpre Hs.
  apply (Orchestration.python_exit argv0 _ w
           (ExitError (AmbiguousOption s ["--pylint"; "--pyre"]))).
  pose proof (classify_after_words argv0 pre (s :: post) Hpre) as Hc.
  unfold Argparse.parse_args, _parse_known_args.
  destruct Hs as [-> | ->]; cbn [classify] in Hc;
    match type of Hc with
    | match ?c with _ => _ end =>
        change c with (@inl usage_error arg_strings_pattern
                         (AmbiguousOption "--p" ["--pylint"; "--pyre"])) in Hc
        || change c with (@inl usage_error arg_strings_pattern
                            (AmbiguousOption "--py" ["--pylint"; "--pyre"])) in Hc
    end;
    cbv iota in Hc; now rewrite Hc.
Qed.

Lemma prefix_prefixes t : forall s,
  String.prefix s t = true -> In s (prefixes t).
Proof.
  induction t as [|c t IH]; intros [|a s]; cbn; intros H.
  - now left.
  - discriminate.
  - now left.
  - right. destruct (ascii_dec a c) as [->|]; [|discriminate].
    apply in_map. now apply IH.
Qed.

(** An unambiguous abbreviation of a tool flag is read as the
    flag. *)
Lemma abbreviation_parse argv0 dest s :
  String.prefix s (flag_of dest) = true ->
  (min_abbrev dest <= String.length s)%nat ->
  String.eqb s "--" = false /\
  _parse_optional (setup_argparse argv0) s
  = _parse_optional (setup_argparse argv0) (flag_of dest).
Proof.
  intros Hpre Hlen. apply prefix_prefixes in Hpre.
  destruct dest; cbn in Hpre, Hlen;
    repeat (destruct Hpre as [<-|Hpre];
            [first [cbn in Hlen; lia | split; reflexivity]|]);
    destruct Hpre.
Qed.

Lemma is_option_anonymous x : is_option (anonymous x) = is_option x.
Proof.
  unfold anonymous, is_option. destruct x as [s [|t]]; cbn; [reflexivity|].
  destruct (ot_action t); reflexivity.
Qed.

Lemma options_ahead_anonymous l :
  options_ahead (map anonymous l) = options_ahead l.
Proof.
  unfold options_ahead. induction l as [|x l IH]; [reflexivity|].
  cbn. now rewrite is_option_anonymous, IH.
Qed.

Lemma anonymous_arguments l : options_ahead l = false -> map anonymous l = l.
Proof.
  unfold options_ahead. induction l as [|[s p] l IH]; [reflexivity|].
  cbn. destruct p as [|t]; cbn; [|discriminate].
  intros H. now rewrite (IH H).
Qed.

(** The loop does not look at how an option of the parser was
    spelled. *)
Lemma consume_loop_anonymous parser l : forall st,
  consume_loop parser l st = consume_loop parser (map anonymous l) st.
Proof.
  induction l as [|[s p] l IH]; intros st; [reflexivity|].
  destruct (options_ahead ((s, p) :: l)) eqn:Hahead.
  - pose proof (options_ahead_anonymous ((s, p) :: l)) as Ha.
    rewrite Hahead in Ha.
    cbn [consume_loop]. rewrite Hahead.
    destruct p as [|t].
    + change (map anonymous ((s, A) :: l)) with ((s, A) :: map anonymous l) in *.
      cbn [consume_loop]. rewrite Ha.
      destruct (st_directory st); apply IH.
    + unfold anonymous at 1 in Ha. unfold anonymous at 1.
      cbn [map snd] in *.
      destruct (ot_action t) as [a|] eqn:Hact.
      * cbn [consume_loop]. rewrite Ha.
        unfold consume_optional. rewrite Hact.
        destruct (ot_explicit_arg t) as [e|].
        -- destruct (explicit_arg_actions parser a (ot_option_string t) e);
             [reflexivity|].
           destruct (take_actions parser l0 st); [reflexivity | apply IH].
        -- destruct (take_actions parser [a] st); [reflexivity | apply IH].
      * cbn [consume_loop]. rewrite Ha.
        destruct (consume_optional parser s t st); [reflexivity | apply IH].
  - now rewrite (anonymous_arguments _ Hahead).
Qed.

Lemma _parse_known_args_erase parser argv :
  _parse_known_args parser argv
  = match erase (classify parser argv) with
    | inl e => inl (ExitError e)
    | inr (l, dashes) =>
        match consume_loop parser l initial_state with
        | inl x => inl x
        | inr (st, strings) =>
            let st' := consume_tail (tail_pattern strings dashes) st in
            match st_directory st' with
            | None => inl (ExitError (RequiredArguments [positional parser]))
            | Some d =>
                inr ({| directory := d; bandit := st_bandit st';
                        flake8 := st_flake8 st'; pylint := st_pylint st';
                        pyre := st_pyre st' |}, extras st')
            end
        end
    end.
Proof.
  unfold _parse_known_args, erase.
  destruct (classify parser argv) as [e|p]; [reflexivity|].
  now rewrite <- consume_loop_anonymous.
Qed.

Lemma classify_spelling parser s f t a pre post :
  _parse_optional parser s = inr (Some t) ->
  _parse_optional parser f = inr (Some t) ->
  ot_action t = Some a ->
  String.eqb s "--" = false ->
  String.eqb f "--" = false ->
  Forall (fun x => String.eqb x "--" = false) pre ->
  erase (classify parser (pre ++ s :: post))
  = erase (classify parser (pre ++ f :: post)).
Proof.
  intros Hs Hf Ha Hsd Hfd Hpre.
  induction Hpre as [|h pre Hh Hpre IH].
  - cbn [app classify]. rewrite Hs, Hf, Hsd, Hfd.
    destruct (classify parser post) as [e|p]; [reflexivity|].
    unfold erase. cbn [before after_dashes map].
    unfold anonymous. cbn [snd]. now rewrite Ha.
  - cbn [app classify]. rewrite Hh.
    destruct (_parse_optional parser h) as [e|o]; [reflexivity|].
    destruct (classify parser (pre ++ s :: post)) as [e1|p1];
      destruct (classify parser (pre ++ f :: post)) as [e2|p2];
      cbn [erase] in IH |- *; try discriminate.
    + now injection IH as ->.
    + injection IH as Hb Hd. cbn [before after_dashes map].
      now rewrite Hb, Hd.
Qed.

(** X12.  An unambiguous abbreviation of a tool flag in front of any
    ['--'] does what the flag does: the whole run of the process is
    the same. *)
Theorem abbreviated_flag argv0 dest s pre post (w : W) :
  String.prefix s (flag_of dest) = true ->
  (min_abbrev dest <= String.length s)%nat ->
  Forall (fun x => String.eqb x "--" = false) pre ->
  python argv0 (pre ++ s :: post) w
  = python argv0 (pre ++ flag_of dest :: post) w.
Proof.
  intros Hprefix Hlen Hpre.
  destruct (abbreviation_parse argv0 dest s Hprefix Hlen) as (Hsd & Hparse).
  rewrite flag_of_parse in Hparse.
  assert (Heq : Argparse.parse_args (setup_argparse argv0) (pre ++ s :: post)
                = Argparse.parse_args (setup_argparse argv0)
                    (pre ++ flag_of dest :: post)).
  { unfold Argparse.parse_args. rewrite !_parse_known_args_erase.
    rewrite (classify_spelling _ s (flag_of dest) _ (StoreTrueAction dest)
               pre post Hparse (flag_of_parse argv0 dest) eq_refl Hsd); auto.
    now destruct dest. }
  unfold python, main, bind, Runtime.parse_args. now rewrite Heq.
Qed.

(** *** From the command line to the children *)

(** A string that does not start with ['-'] is a positional. *)
Lemma ordinary_positional argv0 d :
  Str.is_dash (Str.char0 d) = false ->
  String.eqb d "--" = false /\ is_positional argv0 d = true.
Proof.
  intros H. unfold is_positional, _parse_optional.
  destruct d as [|c d]; [split; reflexivity|].
  cbn [Str.char0 Str.is_dash] in H.
  cbn [String.eqb Str.char0 Str.is_dash]. rewrite H.
  split; reflexivity.
Qed.

Lemma run_all_succeeds (healthy : W -> Prop) cmds :
  (forall w c,
      healthy w -> In c cmds ->
      exited_zero (fst (spawn w c)) = true /\ healthy (snd (spawn w c))) ->
  forall st : process_state W,
    healthy (world st) ->
    fst (run_all cmds st) = inr tt /\
    map fst (spawned (snd (run_all cmds st)))
    = (map fst (spawned st) ++ cmds)%list.
Proof.
  induction cmds as [|c cmds IH]; intros Hok st Hst.
  - cbn. now rewrite app_nil_r.
  - rewrite Behaviour.run_all_step.
    destruct (Hok (world st) c Hst (or_introl eq_refl)) as (Hz & Hnext).
    rewrite (Behaviour.tool_result_ok (c, fst (spawn (world st) c)) Hz).
    assert (Hst1 : healthy (world (snd (run_tool c st)))).
    { now rewrite Behaviour.run_tool_effect. }
    destruct (IH (fun w c' Hw Hin => Hok w c' Hw (or_intror Hin))
                 (snd (run_tool c st)) Hst1) as (Hr & Hs).
    split; [exact Hr|]. rewrite Hs, Behaviour.run_tool_effect. cbn [snd spawned].
    rewrite map_app, <- app_assoc. reflexivity.
Qed.

(** X13.  From the command line to the children: for an existing
    directory whose name does not start with ['-'], followed by any of
    the tool flags, when the selected tools exit with 0 (in every
    state of the world the run can be in), the process exits with
    status 0 after spawning the commands of the selected tools, each
    once, in the order bandit, flake8, pylint, pyre. *)
Theorem run_of_command_line (healthy : W -> Prop) argv0 d b f p y (w : W) :
  Str.is_dash (Str.char0 d) = false ->
  is_dir w d = true ->
  healthy w ->
  (forall w' c,
      healthy w' -> In c (tool_sequence d b f p y) ->
      exited_zero (fst (spawn w' c)) = true /\ healthy (snd (spawn w' c))) ->
  status argv0 (command_line d b f p y) w = 0 /\
  commands argv0 (command_line d b f p y) w = tool_sequence d b f p y.
Proof.
  intros Hd Hdir Hw Hok.
  destruct (ordinary_positional argv0 d Hd) as (Hdd & Hpos).
  pose proof (CommandLine.parse_args_command_line argv0 d b f p y Hdd Hpos) as Hp.
  set (ns := {| directory := PyStr d; bandit := b; flake8 := f; pylint := p;
                pyre := y |}) in Hp.
  assert (Ha : analysis ns w = run_all (tool_sequence d b f p y) (start w)).
  { unfold analysis. cbn [directory bandit flake8 pylint pyre ns].
    now apply Orchestration.analyze_code_run. }
  destruct (run_all_succeeds healthy (tool_sequence d b f p y) Hok (start w) Hw)
    as (Hr & Hs).
  rewrite <- Ha in Hr, Hs.
  unfold status, commands.
  rewrite (Orchestration.python_success _ _ _ _ Hp Hr). cbn [fst snd].
  split; [reflexivity | exact Hs].
Qed.

End WithRegex.

End Parser.


(** ** More concrete runs *)

Module MoreRuns.
Import Argparse Runtime Main Props Vocabulary Examples.

(** [main.py --flake8 src --bandit --flake8] *)
Lemma parse_args_words_run :
  Argparse.parse_args (setup_argparse "main.py")
    ["--flake8"; "src"; "--bandit"; "--flake8"]
  = inr {| directory := PyStr "src"; bandit := true; flake8 := true;
           pylint := false; pyre := false |}.
Proof.
  apply (Parser.parse_args_words "main.py"
           ["--flake8"; "src"; "--bandit"; "--flake8"]).
  repeat constructor.
Defined.

(** [main.py src --bandit --flake8 --pylint] with flake8 failing *)
Lemma spawned_commands_head_run :
  exists skipped,
    selected "src" three_tools
    = (commands "main.py" ["src"; "--bandit"; "--flake8"; "--pylint"] flake8_fails
         ++ skipped)%list.
Proof.
  apply (Behaviour.spawned_commands_head "main.py"
           ["src"; "--bandit"; "--flake8"; "--pylint"] flake8_fails
           three_tools "src").
  - vm_compute. reflexivity.
  - reflexivity.
Defined.

(** [main.py src --pyre] *)
Lemma success_iff_run :
  (status "main.py" ["src"; "--pyre"] src_only = 0 <->
   is_dir src_only "src" = true /\
   Forall (fun x => exited_zero (snd x) = true)
     (spawned (snd (python "main.py" ["src"; "--pyre"] src_only)))) /\
  (status "main.py" ["src"; "--pyre"] src_only = 0 ->
   commands "main.py" ["src"; "--pyre"] src_only
   = selected "src" {| directory := PyStr "src"; bandit := false;
                       flake8 := false; pylint := false; pyre := true |}).
Proof.
  apply (Behaviour.success_iff "main.py" ["src"; "--pyre"] src_only
           {| directory := PyStr "src"; bandit := false; flake8 := false;
              pylint := false; pyre := true |} "src").
  - vm_compute. reflexivity.
  - reflexivity.
Defined.

(** [main.py src --bandit --flake8] with flake8 failing *)
Lemma log_of_run_run :
  log (snd (python "main.py" ["src"; "--bandit"; "--flake8"] flake8_fails))
  = (flat_map tool_log
       (spawned (snd (python "main.py" ["src"; "--bandit"; "--flake8"] flake8_fails)))
     ++ caught
          (spawned (snd (python "main.py" ["src"; "--bandit"; "--flake8"]
                           flake8_fails))))%list /\
  console (snd (python "main.py" ["src"; "--bandit"; "--flake8"] flake8_fails)) = [].
Proof.
  apply (Behaviour.log_of_run "main.py" ["src"; "--bandit"; "--flake8"]
           flake8_fails
           {| directory := PyStr "src"; bandit := true; flake8 := true;
              pylint := false; pyre := false |} "src").
  - vm_compute. reflexivity.
  - reflexivity.
  - vm_compute. reflexivity.
Defined.

(** [main.py src --bandit --flake8 --pyre] without flake8 *)
Lemma tool_not_started_run :
  @nil (list string * proc_outcome) = [] /\
  status "main.py" ["src"; "--bandit"; "--flake8"; "--pyre"] no_flake8 = 1 /\
  log (snd (python "main.py" ["src"; "--bandit"; "--flake8"; "--pyre"] no_flake8))
  = (flat_map tool_log [(["bandit"; "-r"; "src"], Exited 0 "bandit: ok" "")]
       ++ [running ["flake8"; "src"];
           error_occurred
             (OtherException "FileNotFoundError"
                "[Errno 2] No such file or directory: 'flake8'")])%list.
Proof.
  apply (Behaviour.tool_not_started "main.py"
           ["src"; "--bandit"; "--flake8"; "--pyre"] no_flake8
           {| directory := PyStr "src"; bandit := true; flake8 := true;
              pylint := false; pyre := true |} "src"
           [(["bandit"; "-r"; "src"], Exited 0 "bandit: ok" "")]
           ["flake8"; "src"] "FileNotFoundError"
           "[Errno 2] No such file or directory: 'flake8'" []).
  - vm_compute. reflexivity.
  - reflexivity.
  - vm_compute. reflexivity.
  - vm_compute. reflexivity.
Defined.

(** [main.py src --bandit --flake8 --pylint], flake8 interrupted *)
Lemma tool_interrupted_run :
  @nil (list string * proc_outcome) = [] /\
  status "main.py" ["src"; "--bandit"; "--flake8"; "--pylint"]
    flake8_interrupted = 130 /\
  log (snd (python "main.py" ["src"; "--bandit"; "--flake8"; "--pylint"]
              flake8_interrupted))
  = (flat_map tool_log [(["bandit"; "-r"; "src"], Exited 0 "bandit: ok" "")]
       ++ [running ["flake8"; "src"]])%list.
Proof.
  apply (Behaviour.tool_interrupted "main.py"
           ["src"; "--bandit"; "--flake8"; "--pylint"] flake8_interrupted
           {| directory := PyStr "src"; bandit := true; flake8 := true;
              pylint := true; pyre := false |} "src"
           [(["bandit"; "-r"; "src"], Exited 0 "bandit: ok" "")]
           ["flake8"; "src"] []).
  - vm_compute. reflexivity.
  - reflexivity.
  - vm_compute. reflexivity.
  - vm_compute. reflexivity.
Defined.

(** [main.py vault/code --bandit], with no permission for [vault] *)
Lemma directory_check_raises_run :
  python "main.py" ["vault/code"; "--bandit"] vault_denied
  = (1, {| world := vault_denied;
           log := [error_occurred
                     (OtherException "PermissionError"
                        "[Errno 13] Permission denied: 'vault/code'")];
           spawned := [];
           console := [] |}).
Proof.
  apply (Behaviour.directory_check_raises "main.py" ["vault/code"; "--bandit"]
           vault_denied
           {| directory := PyStr "vault/code"; bandit := true; flake8 := false;
              pylint := false; pyre := false |} "vault/code").
  - vm_compute. reflexivity.
  - reflexivity.
  - vm_compute. reflexivity.
Defined.

(** [main.py nowhere --bandit] *)
Lemma missing_directory_run_run :
  python "main.py" ["nowhere"; "--bandit"] src_only
  = (1, {| world := src_only;
           log := [directory_missing "nowhere";
                   error_occurred
                     (FileNotFoundError "Directory not found: nowhere")];
           spawned := [];
           console := [] |}).
Proof.
  apply (Behaviour.missing_directory_run "main.py" ["nowhere"; "--bandit"]
           src_only
           {| directory := PyStr "nowhere"; bandit := true; flake8 := false;
              pylint := false; pyre := false |} "nowhere").
  - vm_compute. reflexivity.
  - reflexivity.
  - vm_compute. reflexivity.
Defined.

(** [main.py src --bandit -h --version]: the help *)
Lemma first_help_or_version_run :
  python "main.py" ["src"; "--bandit"; "-h"; "--version"] src_only
  = (0, {| world := src_only; log := []; spawned := [];
           console := [ExitHelp] |}).
Proof.
  apply (Parser.first_help_or_version "main.py" ["src"; "--bandit"] "-h"
           ["--version"] src_only).
  - repeat constructor.
  - left. reflexivity.
  - repeat constructor.
Defined.

(** [main.py src --bandit=yes] *)
Lemma flag_with_value_run :
  python "main.py" ["src"; "--bandit=yes"] src_only
  = (2, {| world := src_only; log := []; spawned := [];
           console :=
             [ExitError (IgnoredExplicitArgument (StoreTrueAction Bandit) "yes")] |}).
Proof.
  apply (Parser.flag_with_value "main.py" ["src"] Bandit "yes" [] src_only).
  - repeat constructor.
  - constructor.
Defined.

(** [main.py src --py] *)
Lemma ambiguous_abbreviation_run :
  python "main.py" ["src"; "--py"] src_only
  = (2, {| world := src_only; log := []; spawned := [];
           console :=
             [ExitError (AmbiguousOption "--py" ["--pylint"; "--pyre"])] |}).
Proof.
  apply (Parser.ambiguous_abbreviation "main.py" ["src"] "--py" [] src_only).
  - repeat constructor.
  - right. reflexivity.
Defined.

(** [main.py src --fl] is [main.py src --flake8] *)
Lemma abbreviated_flag_run :
  python "main.py" ["src"; "--fl"] flake8_fails
  = python "main.py" ["src"; "--flake8"] flake8_fails.
Proof.
  apply (Parser.abbreviated_flag "main.py" Flake8 "--fl" ["src"] [] flake8_fails).
  - reflexivity.
  - cbn. lia.
  - repeat constructor.
Defined.

(** [main.py -- -weird] *)
Lemma parse_args_str_run :
  exists d,
    directory {| directory := PyStr "-weird"; bandit := false; flake8 := false;
                 pylint := false; pyre := false |} = PyStr d.
Proof.
  apply (CommandLine.parse_args_str (setup_argparse "main.py") ["--"; "-weird"]).
  vm_compute. reflexivity.
Defined.

(** [main.py src --bandit --pyre] with every tool succeeding *)
Lemma run_of_command_line_run :
  status "main.py" (command_line "src" true false false true) src_only = 0 /\
  commands "main.py" (command_line "src" true false false true) src_only
  = tool_sequence "src" true false false true.
Proof.
  apply (Parser.run_of_command_line (fun w => w = src_only) "main.py" "src"
           true false false true src_only).
  - reflexivity.
  - reflexivity.
  - reflexivity.
  - intros w' c -> [<-|[<-|[]]]; split; reflexivity.
Defined.

End MoreRuns.
